(** * Material matrices and thickness integration (gsMaterialMatrix_test.cpp)

    A shallow embedding of the function objects of
    [examples/gsMaterialMatrix_test.cpp]:

    - [gsIntegrantZ]      the z-extended field adapter,
    - [gsIntegrateZ]      the thickness integrator with a fixed bound,
    - [gsIntegrate]       the thickness integrator with a thickness field,
    - [gsMaterialMatrix]  the isotropic material matrix,
    - [gsMaterialMatrixD] the laminate (composite) material matrix.

    The classes are templates over the coefficient type [T]; here [T] is
    instantiated with the real numbers [R], so every arithmetic statement
    below is about exact arithmetic, not about the rounding of [double].
    [GISMO_ASSERT] is modelled as active: a failed assertion ends the call.
*)

From Stdlib Require Import List Arith Lia Reals Lra Psatz.
Import ListNotations.

Open Scope R_scope.

(* ================================================================== *)
(** * Failed assertions *)

(** One constructor per [GISMO_ASSERT] of the source file. *)
Inductive failure : Type :=
| RowsNotOne            (* gsIntegrantZ: u.rows()==1 *)
| DomainDimMismatch     (* gsIntegrantZ: _fun->domainDim()==_surfPts.rows()+1 *)
| MultiplePoints        (* gsIntegrantZ: _surfPts.cols()==1 *)
| SizeYoungPoisson      (* gsMaterialMatrixD: sizes of Youngs moduli / Poisson ratios *)
| SizeYoungShear        (* gsMaterialMatrixD: sizes of Youngs moduli / shear moduli *)
| SizeThicknessPhi      (* gsMaterialMatrixD: sizes of thickness / angles *)
| SizeYoungThickness    (* gsMaterialMatrixD: sizes of material / laminate properties *)
| NoLaminates           (* gsMaterialMatrixD: no laminates defined *)
| NoSymmetry (ply : nat)(* gsMaterialMatrixD: nu21*E1 == nu12*E2 for ply i *)
| TotalThicknessWrong   (* gsMaterialMatrixD: t_tot==t_temp *)
| NoImplementation       (* gsFunction: GISMO_NO_IMPLEMENTATION *).

Inductive outcome (A : Type) : Type :=
| Ok (a : A)
| Failed (e : failure).
Arguments Ok {A} a.
Arguments Failed {A} e.

Definition bind {A B : Type} (m : outcome A) (k : A -> outcome B) : outcome B :=
  match m with
  | Ok a => k a
  | Failed e => Failed e
  end.

Definition GISMO_ASSERT (cond : bool) (e : failure) : outcome unit :=
  if cond then Ok tt else Failed e.

Declare Scope outcome_scope.
Delimit Scope outcome_scope with outcome.
Notation "x <- m ;; k" := (bind m (fun x => k))
  (at level 61, m at next level, right associativity) : outcome_scope.
Notation "'check' c 'orelse' e ;; k" := (bind (GISMO_ASSERT c e) (fun _ => k))
  (at level 61, c at next level, e at next level, right associativity) : outcome_scope.
Open Scope outcome_scope.

(** A counted loop [for (i = 0; i != n; ++i)] whose body may fail. *)
Fixpoint forM {S : Type} (idx : list nat) (body : nat -> S -> outcome S) (s : S)
  : outcome S :=
  match idx with
  | [] => Ok s
  | i :: rest =>
      match body i s with
      | Ok s' => forM rest body s'
      | Failed e => Failed e
      end
  end.

(* ================================================================== *)
(** * Fixed-size vectors and matrices

    [gsMatrix<real_t,3,3>] and the 3-vectors of the geometry data.  The
    dense linear algebra itself (Eigen, [gsMatrix]) is not part of the
    two source files; its operations are given their usual meaning. *)

Record vec3 : Type := mkVec3 { vx : R; vy : R; vz : R }.

(** [mIJ] is the coefficient [(I,J)]. *)
Record mat3 : Type := mkMat3 {
  m00 : R; m01 : R; m02 : R;
  m10 : R; m11 : R; m12 : R;
  m20 : R; m21 : R; m22 : R
}.

Definition identity3 : mat3 := mkMat3 1 0 0  0 1 0  0 0 1.

Definition fromCols (c0 c1 c2 : vec3) : mat3 :=
  mkMat3 (vx c0) (vx c1) (vx c2)
         (vy c0) (vy c1) (vy c2)
         (vz c0) (vz c1) (vz c2).

Definition transpose (a : mat3) : mat3 :=
  mkMat3 (m00 a) (m10 a) (m20 a)
         (m01 a) (m11 a) (m21 a)
         (m02 a) (m12 a) (m22 a).

Definition mul (a b : mat3) : mat3 :=
  mkMat3
    (m00 a * m00 b + m01 a * m10 b + m02 a * m20 b)
    (m00 a * m01 b + m01 a * m11 b + m02 a * m21 b)
    (m00 a * m02 b + m01 a * m12 b + m02 a * m22 b)
    (m10 a * m00 b + m11 a * m10 b + m12 a * m20 b)
    (m10 a * m01 b + m11 a * m11 b + m12 a * m21 b)
    (m10 a * m02 b + m11 a * m12 b + m12 a * m22 b)
    (m20 a * m00 b + m21 a * m10 b + m22 a * m20 b)
    (m20 a * m01 b + m21 a * m11 b + m22 a * m21 b)
    (m20 a * m02 b + m21 a * m12 b + m22 a * m22 b).

(** [a * t] for a scalar [t]. *)
Definition scale (a : mat3) (t : R) : mat3 :=
  mkMat3 (m00 a * t) (m01 a * t) (m02 a * t)
         (m10 a * t) (m11 a * t) (m12 a * t)
         (m20 a * t) (m21 a * t) (m22 a * t).

Definition determinant (a : mat3) : R :=
    m00 a * (m11 a * m22 a - m12 a * m21 a)
  + m10 a * (m21 a * m02 a - m22 a * m01 a)
  + m20 a * (m01 a * m12 a - m02 a * m11 a).

(** [a.inverse()] of a 3 x 3 matrix: the cofactors times [1/det]. *)
Definition inverse (a : mat3) : mat3 :=
  let invdet := 1 / determinant a in
  mkMat3 ((m11 a * m22 a - m12 a * m21 a) * invdet)
         ((m21 a * m02 a - m22 a * m01 a) * invdet)
         ((m01 a * m12 a - m02 a * m11 a) * invdet)
         ((m12 a * m20 a - m10 a * m22 a) * invdet)
         ((m22 a * m00 a - m20 a * m02 a) * invdet)
         ((m02 a * m10 a - m00 a * m12 a) * invdet)
         ((m10 a * m21 a - m11 a * m20 a) * invdet)
         ((m20 a * m01 a - m21 a * m00 a) * invdet)
         ((m00 a * m11 a - m01 a * m10 a) * invdet).

Definition squaredNorm (v : vec3) : R := vx v * vx v + vy v * vy v + vz v * vz v.

(** [v.normalized()]: [v] divided by its norm; a zero vector is returned
    as it is. *)
Definition normalized (v : vec3) : vec3 :=
  let z := squaredNorm v in
  if Rlt_dec 0 z
  then mkVec3 (vx v / sqrt z) (vy v / sqrt z) (vz v / sqrt z)
  else v.

(** The coefficients of a 3 x 3 matrix in storage order (column by column). *)
Definition coeffs3 (a : mat3) : list R :=
  [m00 a; m10 a; m20 a; m01 a; m11 a; m21 a; m02 a; m12 a; m22 a].

(** The test [a == b] on coefficients. *)
Definition Reqb (a b : R) : bool := if Req_dec_T a b then true else false.

(* ================================================================== *)
(** * Dense matrices

    [gsMatrix<T>] stores its coefficients column by column.  A matrix is
    kept as its row count and the list of its columns; [cols] is the
    number of columns and the coefficient [(i,j)] is entry [i] of column
    [j]. *)

Record gsMatrix : Type := mkMat { rows : nat; columns : list (list R) }.

Definition cols (m : gsMatrix) : nat := length (columns m).

Definition col (m : gsMatrix) (j : nat) : list R := nth j (columns m) [].

Definition coef (m : gsMatrix) (i j : nat) : R := nth i (col m j) 0.

(** Every column holds [rows] coefficients. *)
Definition wf (m : gsMatrix) : Prop :=
  Forall (fun c => length c = rows m) (columns m).

(** A default-constructed matrix is 0 x 0. *)
Definition emptyMat : gsMatrix := mkMat 0 [].

(** [upd i v l]: the list [l] with entry [i] replaced by [v]
    (no change when [i] is out of range; the source never writes there). *)
Fixpoint upd {A : Type} (i : nat) (v : A) (l : list A) : list A :=
  match l, i with
  | [], _ => []
  | _ :: t, O => v :: t
  | h :: t, S i' => h :: upd i' v t
  end.

(** [m(i,j) = v]. *)
Definition set_coef (i j : nat) (v : R) (m : gsMatrix) : gsMatrix :=
  mkMat (rows m) (upd j (upd i v (col m j)) (columns m)).

(** [m.col(j)] as a matrix with one column. *)
Definition colMat (m : gsMatrix) (j : nat) : gsMatrix :=
  mkMat (rows m) [col m j].

(** [m.topRows(k)] read as a value. *)
Definition topRows (k : nat) (m : gsMatrix) : gsMatrix :=
  mkMat k (map (firstn k) (columns m)).

(** [m.replicate(rowFactor, colFactor)]: a NEW matrix made of copies of
    [m]; [m] itself is not changed by the call. *)
Definition replicate (rowFactor colFactor : nat) (m : gsMatrix) : gsMatrix :=
  mkMat (rowFactor * rows m)
        (concat (repeat (map (fun c => concat (repeat c rowFactor)) (columns m))
                        colFactor)).

(** [dst.topRows(k) = src]: the first [k] coefficients of each column of
    [dst] are taken from the matching column of [src]. *)
Definition assign_topRows (k : nat) (src dst : gsMatrix) : gsMatrix :=
  mkMat (rows dst)
        (map (fun sd => firstn k (fst sd) ++ skipn k (snd sd))
             (combine (columns src) (columns dst))).

(** [dst.bottomRows(k) = src]: the last [k] coefficients of each column
    of [dst] are taken from the matching column of [src]. *)
Definition assign_bottomRows (k : nat) (src dst : gsMatrix) : gsMatrix :=
  mkMat (rows dst)
        (map (fun sd => firstn (rows dst - k) (snd sd) ++ firstn k (fst sd))
             (combine (columns src) (columns dst))).

(** Cut a coefficient array into [c] columns of [r] coefficients. *)
Fixpoint chunk (r c : nat) (l : list R) : list (list R) :=
  match c with
  | O => []
  | S c' => firstn r l :: chunk r c' (skipn r l)
  end.

(** Split an equation between two lists of coefficients of the same
    length into one equation per coefficient. *)
Ltac coefficientwise :=
  repeat (apply (f_equal2 (@cons R))); try reflexivity.

Section Model.

(** [uninit k] is the value found in coefficient [k] of storage that
    has just been allocated and not yet written: [resize] does not
    initialise what it allocates. *)
Variable uninit : nat -> R.

(** [m.resize(r, c)]: when the number of coefficients does not change
    the storage and its values are kept; otherwise new storage is
    allocated and the old values are lost. *)
Definition resize (r c : nat) (m : gsMatrix) : gsMatrix :=
  if Nat.eqb (r * c) (rows m * cols m)
  then mkMat r (chunk r c (concat (columns m)))
  else mkMat r (chunk r c (map uninit (seq 0 (r * c)))).

(* ================================================================ *)
(** * Fields: [gsFunction<T>]

    [eval_into(u, result)] reads the points [u] (one per column) and
    writes [result]; the second argument below is the matrix passed
    as [result], the value returned is that matrix after the call. *)

Record gsFunction : Type := mkFun {
  domainDim : nat;
  targetDim : nat;
  eval_into : gsMatrix -> gsMatrix -> outcome gsMatrix
}.

(** A field given by its value at one point: column [j] of the
    result is the value at column [j] of [u] (gsFunction.h: every
    column of [u] is one evaluation point, the result has one column
    per point). *)
Definition pointwise (d D : nat) (g : list R -> list R) : gsFunction :=
  mkFun d D (fun u _ => Ok (mkMat D (map g (columns u)))).

(** The constant field [f(x) = c] on a [d]-dimensional domain. *)
Definition constantFunction (c : list R) (d : nat) : gsFunction :=
  pointwise d (length c) (fun _ => c).

(* ================================================================ *)
(** * [gsIntegrantZ]: the z-extended field adapter *)

Record gsIntegrantZ : Type := mkIntegrantZ {
  iz_fun : gsFunction;      (* _fun *)
  iz_tmp : gsMatrix;        (* mutable tmp: written before it is read *)
  iz_surfPts : gsMatrix     (* _surfPts *)
}.

(** [gsIntegrantZ(fun)]: the matrices are default-constructed. *)
Definition gsIntegrantZ_make (f : gsFunction) : gsIntegrantZ :=
  mkIntegrantZ f emptyMat emptyMat.

Definition setPoint (surfPts : gsMatrix) (a : gsIntegrantZ) : gsIntegrantZ :=
  mkIntegrantZ (iz_fun a) (iz_tmp a) surfPts.

Definition point (a : gsIntegrantZ) : gsMatrix := iz_surfPts a.

Definition gsIntegrantZ_domainDim (a : gsIntegrantZ) : nat := 1.

Definition gsIntegrantZ_targetDim (a : gsIntegrantZ) : nat :=
  targetDim (iz_fun a).

Definition gsIntegrantZ_eval_into (a : gsIntegrantZ) (u result : gsMatrix)
  : outcome gsMatrix :=
  check (Nat.eqb (rows u) 1) orelse RowsNotOne ;;
  check (Nat.eqb (domainDim (iz_fun a)) (rows (iz_surfPts a) + 1))
    orelse DomainDimMismatch ;;
  check (Nat.eqb (cols (iz_surfPts a)) 1) orelse MultiplePoints ;;
  let m := rows (iz_surfPts a) in
  let N := cols u in
  let tmp := resize (m + 1) N (iz_tmp a) in
  let tmp := assign_topRows m (replicate 1 N (iz_surfPts a)) tmp in
  let tmp := assign_bottomRows 1 u tmp in
  eval_into (iz_fun a) tmp result.

(** The adapter seen through the [gsFunction] interface. *)
Definition gsIntegrantZ_fun (a : gsIntegrantZ) : gsFunction :=
  mkFun (gsIntegrantZ_domainDim a) (gsIntegrantZ_targetDim a)
        (gsIntegrantZ_eval_into a).

(** What the adapter is meant to evaluate: the points
    [concat(basePoint, z)], one per column of [u]. *)
Definition concatPoint (basePoint : list R) (u : gsMatrix) : gsMatrix :=
  mkMat (length basePoint + rows u)
        (map (fun z => basePoint ++ z) (columns u)).

(* ================================================================ *)
(** * The quadrature engine

    [gsKnotVector], [gsBSplineBasis], [gsMultiBasis] and
    [gsExprEvaluator] are not part of the two source files. *)

(** The arguments of [gsKnotVector<>(first, last, interior, mult_ends)]. *)
Record gsKnotVector : Type := mkKnotVector {
  kv_first : R;
  kv_last : R;
  kv_interior : nat;
  kv_mult_ends : nat
}.

(** Modelled from the spec: the quadrature engine [gsExprEvaluator]
    is missing from the sources; the spec gives it as
    [Integrator.integrate(scalarExpression, mesh) -> scalar] over a
    one-dimensional mesh built from a knot vector.  [quRule kv] lists
    the quadrature nodes of the mesh of [kv] with their weights. *)
Variable quRule : gsKnotVector -> list (R * R).

Fixpoint quadSum (i k : nat) (weights : list R) (vals : gsMatrix) : R :=
  match weights with
  | [] => 0
  | w :: rest => w * coef vals i k + quadSum i (S k) rest vals
  end.

(** Modelled from the spec: [ev.integral(f.tr()[i]); ev.value()] for a
    variable [f] registered on the mesh of [kv]: the field is evaluated
    at the nodes (a matrix with one row) into a fresh matrix and
    coordinate [i] of the values is summed against the weights. *)
Definition integral (kv : gsKnotVector) (f : gsFunction) (i : nat) : outcome R :=
  let nodes := mkMat 1 (map (fun nw => [fst nw]) (quRule kv)) in
  vals <- eval_into f nodes emptyMat ;;
  Ok (quadSum i 0 (map snd (quRule kv)) vals).

(* ================================================================ *)
(** * [gsIntegrateZ]: thickness integral with a fixed bound *)

Record gsIntegrateZ : Type := mkIntegrateZ {
  z_fun : gsFunction;   (* _fun *)
  z_t : R               (* _t   *)
}.

Definition gsIntegrateZ_domainDim (I : gsIntegrateZ) : nat := 1.

Definition gsIntegrateZ_targetDim (I : gsIntegrateZ) : nat :=
  targetDim (z_fun I).

Definition gsIntegrateZ_eval_into (I : gsIntegrateZ) (u result : gsMatrix)
  : outcome gsMatrix :=
  let result := resize (targetDim (z_fun I)) (cols u) result in
  let k := 1%nat in   (* interior knots *)
  let p := 1%nat in   (* B-spline order *)
  let KV := mkKnotVector (- z_t I / 2) (z_t I / 2) k (p + 1) in
  forM (seq 0 (targetDim (z_fun I))) (fun i =>
    forM (seq 0 (cols u)) (fun j result =>
      v <- integral KV (z_fun I) i ;;
      Ok (set_coef i j v result)))
    result.

(* ================================================================ *)
(** * [gsIntegrate]: thickness integral with a thickness field *)

Record gsIntegrate : Type := mkIntegrate {
  v_fun : gsFunction;     (* _fun *)
  v_t : gsFunction;       (* _t   *)
  v_thickMat : gsMatrix   (* mutable thickMat *)
}.

Definition gsIntegrate_domainDim (I : gsIntegrate) : nat := 2.

Definition gsIntegrate_targetDim (I : gsIntegrate) : nat :=
  targetDim (v_fun I).

(** The body of the two loops.  [intfun] refers to [integrant], so the
    point set after [getVariable] is the one used by [integral]. *)
Definition gsIntegrate_body (u thickMat : gsMatrix) (i j : nat)
    (st : gsMatrix * gsIntegrantZ) : outcome (gsMatrix * gsIntegrantZ) :=
  let result := fst st in
  let integrant := snd st in
  let tHalf := coef thickMat 0 j / 2 in
  let KV := mkKnotVector (- tHalf) tHalf 2 2 in
  let integrant := setPoint (colMat u j) integrant in
  v <- integral KV (gsIntegrantZ_fun integrant) i ;;
  Ok (set_coef i j v result, integrant).

Definition gsIntegrate_eval_into (I : gsIntegrate) (u result : gsMatrix)
  : outcome gsMatrix :=
  thickMat <- eval_into (v_t I) u (v_thickMat I) ;;
  let result := resize (targetDim (v_fun I)) (cols u) result in
  let integrant := gsIntegrantZ_make (v_fun I) in
  st <- forM (seq 0 (targetDim (v_fun I))) (fun i =>
          forM (seq 0 (cols u)) (gsIntegrate_body u thickMat i))
        (result, integrant) ;;
  Ok (fst st).

(* ================================================================ *)
(** * [gsMaterialMatrix]: the isotropic material matrix *)

(** Modelled from the spec: the geometry and [computeMap] are missing
    from the sources; the spec gives them as
    [Geometry.jacobianAt(point)], [Geometry.normalAt(point)] and point
    evaluation.  The Jacobian of a surface in space is 3 x 2 and is
    kept as its two columns. *)
Record gsGeometry : Type := mkGeometry {
  geo_targetDim : nat;
  geo_eval : list R -> list R;
  geo_jacobian : list R -> vec3 * vec3;
  geo_normal : list R -> vec3
}.

(** [gsMapData]: what [computeMap] leaves in [_tmp]. *)
Record gsMapData : Type := mkMapData {
  md_points : gsMatrix;                (* points      *)
  md_values0 : gsMatrix;               (* values[0]   *)
  md_jacobian : nat -> vec3 * vec3;    (* jacobian(i) *)
  md_normal : nat -> vec3              (* normal(i)   *)
}.

(** Modelled from the spec: [computeMap] with the flags
    [NEED_JACOBIAN | NEED_NORMAL | NEED_VALUE] fills the value, the
    Jacobian and the normal of the geometry at every point. *)
Definition computeMap (g : gsGeometry) (points : gsMatrix) : gsMapData :=
  mkMapData points
            (mkMat (geo_targetDim g) (map (geo_eval g) (columns points)))
            (fun i => geo_jacobian g (col points i))
            (fun i => geo_normal g (col points i)).

Record gsMaterialMatrix : Type := mkMaterialMatrix {
  mm_mp : nat -> gsGeometry;       (* _mp, by piece *)
  mm_YoungsModulus : gsFunction;   (* _YoungsModulus *)
  mm_PoissonRatio : gsFunction;    (* _PoissonRatio *)
  mm_Emat : gsMatrix;              (* mutable Emat *)
  mm_Nmat : gsMatrix               (* mutable Nmat *)
}.

Definition gsMaterialMatrix_domainDim (mm : gsMaterialMatrix) : nat := 3.

Definition gsMaterialMatrix_targetDim (mm : gsMaterialMatrix) : nat := 9.

(** [piece(k)]: a new evaluator on the [k]-th piece of the geometry. *)
Definition piece (mm : gsMaterialMatrix) (k : nat) : gsMaterialMatrix :=
  mkMaterialMatrix (fun _ => mm_mp mm k) (mm_YoungsModulus mm)
                   (mm_PoissonRatio mm) emptyMat emptyMat.

(** [C(r,c) = v] on the view [C = result.reshapeCol(i,3,3)] of one
    column of 9 coefficients. *)
Definition setC (r c : nat) (v : R) (C : list R) : list R :=
  upd (r + 3 * c) v C.

(** The body of the loop over the columns of [u].

    The coefficients are real numbers and [/] is the division of the
    reals; the source divides, in this order, by the determinant of
    the frame (inside [inverse]), by [(1 + nu) * (1 - 2 * nu)], by
    [2 * (1 + nu)] and by [lambda + 2 * mu].  Where one of these
    vanishes the source produces coefficients that are not numbers,
    and the coefficients computed here mean nothing; [nondegenerate]
    below names the inputs at which none of them vanishes, and the
    theorems on the numeric value of a coefficient, on its vanishing
    and on its scaling are stated for such inputs. *)
Definition gsMaterialMatrix_body (tmp : gsMapData) (Emat Nmat u : gsMatrix)
    (result : gsMatrix) (i : nat) : gsMatrix :=
  let C := col result i in
  let F0 := fromCols (fst (md_jacobian tmp i)) (snd (md_jacobian tmp i))
                     (normalized (md_normal tmp i)) in
  let F0 := inverse F0 in
  let F0 := mul F0 (transpose F0) in
  let E := coef Emat 0 i in
  let nu := coef Nmat 0 i in
  let lambda := E * nu / ((1 + nu) * (1 - 2 * nu)) in
  let mu := E / (2 * (1 + nu)) in
  let C_constant := 4 * lambda * mu / (lambda + 2 * mu) in
  let C := setC 0 0 (C_constant * m00 F0 * m00 F0
                     + 2 * mu * (2 * m00 F0 * m00 F0)) C in
  let C := setC 1 1 (C_constant * m11 F0 * m11 F0
                     + 2 * mu * (2 * m11 F0 * m11 F0)) C in
  let C := setC 2 2 (C_constant * m01 F0 * m01 F0
                     + 2 * mu * (m00 F0 * m11 F0 + m01 F0 * m01 F0)) C in
  let c01 := C_constant * m00 F0 * m11 F0
             + 2 * mu * (2 * m01 F0 * m01 F0) in
  let C := setC 0 1 c01 C in
  let C := setC 1 0 c01 C in
  let c02 := C_constant * m00 F0 * m01 F0
             + 2 * mu * (2 * m00 F0 * m01 F0) in
  let C := setC 0 2 c02 C in
  let C := setC 2 0 c02 C in
  let c12 := C_constant * m01 F0 * m11 F0
             + 2 * mu * (2 * m01 F0 * m11 F0) in
  let C := setC 1 2 c12 C in
  let C := setC 2 1 c12 C in
  let temp := coef u 2 i in
  let C := map (fun c => c * temp) C in
  mkMat (rows result) (upd i C (columns result)).

Definition gsMaterialMatrix_eval_into (mm : gsMaterialMatrix)
    (u result : gsMatrix) : outcome gsMatrix :=
  let tmp := computeMap (mm_mp mm 0) (topRows 2 u) in
  Emat <- eval_into (mm_YoungsModulus mm) (md_values0 tmp) (mm_Emat mm) ;;
  Nmat <- eval_into (mm_PoissonRatio mm) (md_values0 tmp) (mm_Nmat mm) ;;
  let result := resize (gsMaterialMatrix_targetDim mm) (cols u) result in
  Ok (fold_left (gsMaterialMatrix_body tmp Emat Nmat u)
                (seq 0 (cols u)) result).

(** The analytic plane-stress isotropic stiffness tensor of the spec,
    in storage order: [C11 = C22 = E/(1-nu^2)], [C12 = nu E/(1-nu^2)],
    [C33 = E/(2(1+nu))], the other coefficients zero. *)
Definition analyticPlaneStress (E nu : R) : list R :=
  [ E / (1 - nu * nu); nu * E / (1 - nu * nu); 0;
    nu * E / (1 - nu * nu); E / (1 - nu * nu); 0;
    0; 0; E / (2 * (1 + nu)) ].

(** The 9 coefficients the loop body writes for one point, as a
    function of the frame data [(J0 J1 | n)], the material values [E],
    [nu] and the third coordinate [z].  The divisions are those of
    [gsMaterialMatrix_body], with the same proviso. *)
Definition tensorAt (jac : vec3 * vec3) (n : vec3) (E nu z : R) : list R :=
  let F0 := inverse (fromCols (fst jac) (snd jac) (normalized n)) in
  let G := mul F0 (transpose F0) in
  let lambda := E * nu / ((1 + nu) * (1 - 2 * nu)) in
  let mu := E / (2 * (1 + nu)) in
  let K := 4 * lambda * mu / (lambda + 2 * mu) in
  let c00 := K * m00 G * m00 G + 2 * mu * (2 * m00 G * m00 G) in
  let c11 := K * m11 G * m11 G + 2 * mu * (2 * m11 G * m11 G) in
  let c22 := K * m01 G * m01 G + 2 * mu * (m00 G * m11 G + m01 G * m01 G) in
  let c01 := K * m00 G * m11 G + 2 * mu * (2 * m01 G * m01 G) in
  let c02 := K * m00 G * m01 G + 2 * mu * (2 * m00 G * m01 G) in
  let c12 := K * m01 G * m11 G + 2 * mu * (2 * m01 G * m11 G) in
  map (fun c => c * z) [c00; c01; c02; c01; c11; c12; c02; c12; c22].

(* ================================================================ *)
(** * [gsMaterialMatrixD]: the laminate material matrix *)

Record gsMaterialMatrixD : Type := mkMaterialMatrixD {
  _YoungsModuli : list (R * R);
  _ShearModuli : list R;
  _PoissonRatios : list (R * R);
  _thickness : list R;
  _phi : list R
}.

Definition gsMaterialMatrixD_domainDim (mm : gsMaterialMatrixD) : nat := 2.

Definition gsMaterialMatrixD_targetDim (mm : gsMaterialMatrixD) : nat := 9.

(** The steps of the loop over the plies, recorded as they are run. *)
Inductive event : Type :=
| FillDmat (ply : nat)      (* Dmat(0,0) = ... *)
| MakeTmat (ply : nat)      (* Tmat(0,0) = ... *)
| Rotate (ply : nat)        (* Dmat = Tmat.transpose() * Dmat * Tmat *)
| Accumulate (ply : nat)    (* result.reshape(3,3) += Dmat * t *).

(** What [eval_into] reads and writes: the mutable members, the matrix
    passed as [result], and (not in the source) the trace of the steps
    run so far.  [Dmat] and [Tmat] are 3 x 3 after their [resize] and
    every coefficient is written before it is read.

    The mutable members [E1], [E2], [G12], [nu12], [nu21], [t] and
    [phi] are not fields of this record: every iteration assigns them
    from the data of its ply before it reads them, so what they hold
    when a call starts is never read, and they are the [let]-bound
    values of [gsMaterialMatrixD_body].  What they hold when a call
    ends (the data of the last ply reached) is therefore not part of
    the state modelled, and an equality of two values of [lamState]
    says nothing about them. *)
Record lamState : Type := mkLamState {
  t_tot : R;
  z_mid : R;
  t_temp : R;
  z : R;
  Dmat : mat3;
  Tmat : mat3;
  result : gsMatrix;
  trace : list event
}.

(** How a call ends: it returns, or an assertion fails; either way
    with the state reached. *)
Inductive run (A : Type) : Type :=
| Returned (a : A) (s : lamState)
| Aborted (e : failure) (s : lamState).
Arguments Returned {A} a s.
Arguments Aborted {A} e s.

Definition M (A : Type) : Type := lamState -> run A.

Definition ret {A : Type} (a : A) : M A := fun s => Returned a s.

Definition bindM {A B : Type} (m : M A) (k : A -> M B) : M B :=
  fun s => match m s with
           | Returned a s' => k a s'
           | Aborted e s' => Aborted e s'
           end.

Definition get : M lamState := fun s => Returned s s.

Definition modify (f : lamState -> lamState) : M unit :=
  fun s => Returned tt (f s).

Definition assertM (cond : bool) (e : failure) : M unit :=
  fun s => if cond then Returned tt s else Aborted e s.

Notation "m1 >> m2" := (bindM m1 (fun _ => m2))
  (at level 62, right associativity).

Fixpoint forEach (idx : list nat) (body : nat -> M unit) : M unit :=
  match idx with
  | [] => ret tt
  | i :: rest => body i >> forEach rest body
  end.

Definition set_t_tot (v : R) (s : lamState) : lamState :=
  mkLamState v (z_mid s) (t_temp s) (z s) (Dmat s) (Tmat s) (result s) (trace s).
Definition set_z_mid (v : R) (s : lamState) : lamState :=
  mkLamState (t_tot s) v (t_temp s) (z s) (Dmat s) (Tmat s) (result s) (trace s).
Definition set_t_temp (v : R) (s : lamState) : lamState :=
  mkLamState (t_tot s) (z_mid s) v (z s) (Dmat s) (Tmat s) (result s) (trace s).
Definition set_z (v : R) (s : lamState) : lamState :=
  mkLamState (t_tot s) (z_mid s) (t_temp s) v (Dmat s) (Tmat s) (result s) (trace s).
Definition set_Dmat (v : mat3) (s : lamState) : lamState :=
  mkLamState (t_tot s) (z_mid s) (t_temp s) (z s) v (Tmat s) (result s) (trace s).
Definition set_Tmat (v : mat3) (s : lamState) : lamState :=
  mkLamState (t_tot s) (z_mid s) (t_temp s) (z s) (Dmat s) v (result s) (trace s).
Definition set_result (v : gsMatrix) (s : lamState) : lamState :=
  mkLamState (t_tot s) (z_mid s) (t_temp s) (z s) (Dmat s) (Tmat s) v (trace s).
Definition record (ev : event) (s : lamState) : lamState :=
  mkLamState (t_tot s) (z_mid s) (t_temp s) (z s) (Dmat s) (Tmat s) (result s)
             (trace s ++ [ev]).

(** The local orthotropic stiffness matrix of one ply. *)
Definition plyDmat (E1 E2 G12 nu12 nu21 : R) : mat3 :=
  mkMat3 (E1 / (1 - nu12 * nu21)) (nu21 * E1 / (1 - nu12 * nu21)) 0
         (nu12 * E2 / (1 - nu12 * nu21)) (E2 / (1 - nu12 * nu21)) 0
         0 0 G12.

(** The transformation matrix of the fibre angle [phi], after the three
    [*=] corrections of the entries (2,0), (2,1) and (1,2). *)
Definition plyTmat (phi : R) : mat3 :=
  mkMat3 (cos phi ^ 2) (sin phi ^ 2) (sin phi * cos phi)
         (sin phi ^ 2) (cos phi ^ 2) (sin phi * cos phi * -1)
         (sin phi * cos phi * -2) (sin phi * cos phi * 2)
         (cos phi ^ 2 - sin phi ^ 2).

(** [m.reshape(3,3) += a] on a matrix [m] of 9 coefficients: coefficient
    [k] of the storage receives coefficient [k] of [a]. *)
Definition add_reshaped (m : gsMatrix) (a : mat3) : gsMatrix :=
  mkMat (rows m)
        (chunk (rows m) (cols m)
               (map (fun xy => fst xy + snd xy)
                    (combine (concat (columns m)) (coeffs3 a))
                ++ skipn 9 (concat (columns m)))).

(** The body of the loop over the laminates. *)
Definition gsMaterialMatrixD_body (mm : gsMaterialMatrixD) (i : nat) : M unit :=
  let E1 := fst (nth i (_YoungsModuli mm) (0, 0)) in
  let E2 := snd (nth i (_YoungsModuli mm) (0, 0)) in
  let G12 := nth i (_ShearModuli mm) 0 in
  let nu12 := fst (nth i (_PoissonRatios mm) (0, 0)) in
  let nu21 := snd (nth i (_PoissonRatios mm) (0, 0)) in
  let t := nth i (_thickness mm) 0 in
  let phi := nth i (_phi mm) 0 in
  assertM (Reqb (nu21 * E1) (nu12 * E2)) (NoSymmetry i) >>
  modify (fun s => record (FillDmat i) (set_Dmat (plyDmat E1 E2 G12 nu12 nu21) s)) >>
  modify (fun s => record (MakeTmat i) (set_Tmat (plyTmat phi) s)) >>
  modify (fun s => record (Rotate i)
                     (set_Dmat (mul (mul (transpose (Tmat s)) (Dmat s)) (Tmat s)) s)) >>
  modify (fun s => set_z (Rabs (z_mid s - (t / 2 + t_temp s))) s) >>
  modify (fun s => record (Accumulate i)
                     (set_result (add_reshaped (result s) (scale (Dmat s) t)) s)) >>
  modify (fun s => set_t_temp (t_temp s + t) s).

(** [eval_into(u, result)]; the matrix passed as [result] is the field
    [result] of the state the call starts from. *)
Definition gsMaterialMatrixD_eval_into (mm : gsMaterialMatrixD) (u : gsMatrix)
  : M unit :=
  assertM (Nat.eqb (length (_YoungsModuli mm)) (length (_PoissonRatios mm)))
          SizeYoungPoisson >>
  assertM (Nat.eqb (length (_YoungsModuli mm)) (length (_ShearModuli mm)))
          SizeYoungShear >>
  assertM (Nat.eqb (length (_thickness mm)) (length (_phi mm)))
          SizeThicknessPhi >>
  assertM (Nat.eqb (length (_YoungsModuli mm)) (length (_thickness mm)))
          SizeYoungThickness >>
  assertM (negb (Nat.eqb (length (_YoungsModuli mm)) 0)) NoLaminates >>
  modify (set_t_tot (fold_left Rplus (_thickness mm) 0)) >>
  modify (fun s => set_z_mid (t_tot s / 2) s) >>
  modify (set_t_temp 0) >>
  modify (fun s => set_result
                     (resize (gsMaterialMatrixD_targetDim mm) 1 (result s)) s) >>
  forEach (seq 0 (length (_phi mm))) (gsMaterialMatrixD_body mm) >>
  bindM get (fun s =>
  assertM (Reqb (t_tot s) (t_temp s)) TotalThicknessWrong >>
  (* result.replicate(1, u.cols()): the matrix built is dropped *)
  let _ := replicate 1 (cols u) (result s) in
  ret tt).

(** The laminate evaluator seen through the [gsFunction] interface,
    for given contents of its mutable members. *)
Definition gsMaterialMatrixD_fun (mm : gsMaterialMatrixD) (members : lamState)
  : gsFunction :=
  mkFun (gsMaterialMatrixD_domainDim mm) (gsMaterialMatrixD_targetDim mm)
        (fun u r => match gsMaterialMatrixD_eval_into mm u (set_result r members) with
                    | Returned _ s => Ok (result s)
                    | Aborted e _ => Failed e
                    end).

(* ================================================================ *)
(** * Auxiliary definitions used in the statements *)

(** The matrix with coefficient [(i,j)] equal to [V i j]. *)
Definition tabulate (D N : nat) (V : nat -> nat -> R) : gsMatrix :=
  mkMat D (map (fun j => map (fun i => V i j) (seq 0 D)) (seq 0 N)).

(** The knot vector [KV(-_t/2.0, _t/2.0, k, p+1)] of [gsIntegrateZ]. *)
Definition fixedKV (t : R) : gsKnotVector :=
  mkKnotVector (- t / 2) (t / 2) 1 (1 + 1).

Definition valueOf (o : outcome R) : R :=
  match o with
  | Ok v => v
  | Failed _ => 0
  end.

(** The sum of the weights of a quadrature rule. *)
Definition sumWeights (q : list (R * R)) : R :=
  fold_right Rplus 0 (map snd q).

(** The knot vector [KV(-tHalf, tHalf, 2, 2)] of [gsIntegrate]:
    2 interior knots, order 2. *)
Definition variableKV (tHalf : R) : gsKnotVector :=
  mkKnotVector (- tHalf) tHalf 2 2.

(** The adapter over [f] with base point column [j] of [u]. *)
Definition adapterAt (f : gsFunction) (u : gsMatrix) (j : nat) : gsFunction :=
  gsIntegrantZ_fun (setPoint (colMat u j) (gsIntegrantZ_make f)).

(** The frame data and material values used for column [i]. *)
Definition tensorOfColumn (tmp : gsMapData) (Emat Nmat u : gsMatrix) (i : nat)
  : list R :=
  tensorAt (md_jacobian tmp i) (md_normal tmp i)
           (coef Emat 0 i) (coef Nmat 0 i) (coef u 2 i).

(** The tensor written for the query point [c = (x, y, z)]: frame data
    at [(x,y)], material values at the image of [(x,y)] under the
    geometry map, scaling by [z]. *)
Definition tensorOfPoint (g : gsGeometry) (fE fNu : list R -> list R)
    (c : list R) : list R :=
  let xy := firstn 2 c in
  let X := geo_eval g xy in
  tensorAt (geo_jacobian g xy) (geo_normal g xy)
           (nth 0 (fE X) 0) (nth 0 (fNu X) 0) (nth 2 c 0).

(** The inputs of one point at which no division of
    [gsMaterialMatrix_body] is by zero: the frame [(J0 J1 | n)] is
    invertible, and the three denominators of the Lame parameters and
    of [C_constant] do not vanish. *)
Definition nondegenerate (jac : vec3 * vec3) (n : vec3) (E nu : R) : Prop :=
  determinant (fromCols (fst jac) (snd jac) (normalized n)) <> 0 /\
  (1 + nu) * (1 - 2 * nu) <> 0 /\
  2 * (1 + nu) <> 0 /\
  E * nu / ((1 + nu) * (1 - 2 * nu)) + 2 * (E / (2 * (1 + nu))) <> 0.


(** The z-extended field adapter as the specification words it: the
    field of one variable [z -> f(basePoint, z)], evaluated by stacking
    the base point on top of every depth value. *)
Definition zExtended (f : gsFunction) (basePoint : list R) : gsFunction :=
  mkFun 1 (targetDim f)
        (fun z r => eval_into f (concatPoint basePoint z) r).

(** The frame of a flat, axis-aligned patch. *)
Definition flatJacobian : vec3 * vec3 := (mkVec3 1 0 0, mkVec3 0 1 0).
Definition e_z : vec3 := mkVec3 0 0 1.

(** What the code yields on the flat frame at [z = 1]: twice the
    analytic plane-stress tensor. *)
Definition doubledPlaneStress (E nu : R) : list R :=
  [ 2 * E / (1 - nu * nu); 2 * nu * E / (1 - nu * nu); 0;
    2 * nu * E / (1 - nu * nu); 2 * E / (1 - nu * nu); 0;
    0; 0; E / (1 + nu) ].


(** Ply [i] satisfies the elastic symmetry [nu21*E1 == nu12*E2]. *)
Definition symmetric (mm : gsMaterialMatrixD) (i : nat) : Prop :=
  snd (nth i (_PoissonRatios mm) (0, 0)) * fst (nth i (_YoungsModuli mm) (0, 0))
  = fst (nth i (_PoissonRatios mm) (0, 0)) * snd (nth i (_YoungsModuli mm) (0, 0)).

(** The five size assertions that open [eval_into]. *)
Definition sizes_ok (mm : gsMaterialMatrixD) : bool :=
  Nat.eqb (length (_YoungsModuli mm)) (length (_PoissonRatios mm)) &&
  Nat.eqb (length (_YoungsModuli mm)) (length (_ShearModuli mm)) &&
  Nat.eqb (length (_thickness mm)) (length (_phi mm)) &&
  Nat.eqb (length (_YoungsModuli mm)) (length (_thickness mm)) &&
  negb (Nat.eqb (length (_YoungsModuli mm)) 0).

(** The state when the loop over the plies starts. *)
Definition beforeLoop (mm : gsMaterialMatrixD) (s : lamState) : lamState :=
  let s := set_t_tot (fold_left Rplus (_thickness mm) 0) s in
  let s := set_z_mid (t_tot s / 2) s in
  let s := set_t_temp 0 s in
  set_result (resize (gsMaterialMatrixD_targetDim mm) 1 (result s)) s.

(** The state after the body of the loop has run for ply [i]. *)
Definition plyStep (mm : gsMaterialMatrixD) (s : lamState) (i : nat) : lamState :=
  let E1 := fst (nth i (_YoungsModuli mm) (0, 0)) in
  let E2 := snd (nth i (_YoungsModuli mm) (0, 0)) in
  let G12 := nth i (_ShearModuli mm) 0 in
  let nu12 := fst (nth i (_PoissonRatios mm) (0, 0)) in
  let nu21 := snd (nth i (_PoissonRatios mm) (0, 0)) in
  let t := nth i (_thickness mm) 0 in
  let phi := nth i (_phi mm) 0 in
  let s := record (FillDmat i) (set_Dmat (plyDmat E1 E2 G12 nu12 nu21) s) in
  let s := record (MakeTmat i) (set_Tmat (plyTmat phi) s) in
  let s := record (Rotate i)
             (set_Dmat (mul (mul (transpose (Tmat s)) (Dmat s)) (Tmat s)) s) in
  let s := set_z (Rabs (z_mid s - (t / 2 + t_temp s))) s in
  let s := record (Accumulate i)
             (set_result (add_reshaped (result s) (scale (Dmat s) t)) s) in
  set_t_temp (t_temp s + t) s.

(** The steps run for the plies of [idx]. *)
Definition stepsOf (idx : list nat) : list event :=
  flat_map (fun i => [FillDmat i; MakeTmat i; Rotate i; Accumulate i]) idx.

(** Coefficient by coefficient sum of two columns. *)
Definition addColumns (b c : list R) : list R :=
  map (fun xy => fst xy + snd xy) (combine b c).

(* ================================================================ *)
(** * Concrete inputs *)

(** Storage whose fresh coefficients all hold 7. *)
Definition staleStorage : nat -> R := fun _ => 7.

(** The midpoint rule on the whole interval of the knot vector. *)
Definition midpointRule (kv : gsKnotVector) : list (R * R) :=
  [((kv_first kv + kv_last kv) / 2, kv_last kv - kv_first kv)].

(** The field [f(x,y,z) = x + z]. *)
(** The rule with the two ends of the interval as nodes and half its
    length as weights. *)
Definition trapezoidRule (kv : gsKnotVector) : list (R * R) :=
  [(kv_first kv, (kv_last kv - kv_first kv) / 2);
   (kv_last kv, (kv_last kv - kv_first kv) / 2)].

(** A field of three variables with two components, and a thickness
    that varies with the point. *)
Definition bendingField : gsFunction :=
  pointwise 3 2 (fun p => [nth 0 p 0 + nth 2 p 0 * nth 2 p 0;
                           nth 1 p 0 * nth 2 p 0 * nth 2 p 0 + 3]).
Definition thicknessX : list R -> list R := fun p => [nth 0 p 0 + 1].

Definition xPlusZ : gsFunction :=
  pointwise 3 1 (fun p => [nth 0 p 0 + nth 2 p 0]).

(** The flat unit square embedded in space: [G(x,y) = (x,y,0)]. *)
Definition flatSquare : gsGeometry :=
  mkGeometry 3 (fun p => [nth 0 p 0; nth 1 p 0; 0])
             (fun _ => flatJacobian) (fun _ => e_z).

(** The flat unit square moved by one along x: [G(x,y) = (x+1,y,0)]. *)
Definition shiftedSquare : gsGeometry :=
  mkGeometry 3 (fun p => [nth 0 p 0 + 1; nth 1 p 0; 0])
             (fun _ => flatJacobian) (fun _ => e_z).

(** A Young's modulus that varies along x, and a zero Poisson's ratio. *)
Definition modulusX : list R -> list R := fun p => [nth 0 p 0].
Definition ratioZero : list R -> list R := fun _ => [0].

(** The ply of the example driver, with fibre angle 0. *)
Definition onePly : gsMaterialMatrixD :=
  mkMaterialMatrixD [(300, 200)] [100] [(3 / 10, 2 / 10)] [1 / 10] [0].

(** The same ply followed by a ply without elastic symmetry. *)
Definition twoPlies : gsMaterialMatrixD :=
  mkMaterialMatrixD [(300, 200); (1, 1)] [100; 1]
                    [(3 / 10, 2 / 10); (0, 1)] [1 / 10; 1 / 10] [0; 0].

(** Members and a 9 x 1 result matrix holding zeros. *)
Definition zeroState : lamState :=
  mkLamState 0 0 0 0 identity3 identity3 (mkMat 9 [repeat 0 9]) [].

Definition twoPoints : gsMatrix := mkMat 2 [[0; 0]; [1; 1]].

(** The isotropic evaluator on the moved square, with the modulus
    varying along x. *)
Definition shiftedMaterial : gsMaterialMatrix :=
  mkMaterialMatrix (fun _ => shiftedSquare) (pointwise 3 1 modulusX)
                   (pointwise 3 1 ratioZero) emptyMat emptyMat.

(** The isotropic evaluator on the flat square with [E = 1], [nu = 0]. *)
Definition unitMaterial : gsMaterialMatrix :=
  mkMaterialMatrix (fun _ => flatSquare) (constantFunction [1] 3)
                   (constantFunction [0] 3) emptyMat emptyMat.

(** The rotated stiffness of ply [i] times its thickness: what the
    loop body adds to [result] for that ply. *)
Definition plyContribution (mm : gsMaterialMatrixD) (i : nat) : mat3 :=
  let E1 := fst (nth i (_YoungsModuli mm) (0, 0)) in
  let E2 := snd (nth i (_YoungsModuli mm) (0, 0)) in
  let G12 := nth i (_ShearModuli mm) 0 in
  let nu12 := fst (nth i (_PoissonRatios mm) (0, 0)) in
  let nu21 := snd (nth i (_PoissonRatios mm) (0, 0)) in
  let T := plyTmat (nth i (_phi mm) 0) in
  scale (mul (mul (transpose T) (plyDmat E1 E2 G12 nu12 nu21)) T)
        (nth i (_thickness mm) 0).

(** The column [b] with the contributions of all plies added, in order. *)
Definition laminateSum (mm : gsMaterialMatrixD) (b : list R) : list R :=
  fold_left (fun acc i => addColumns acc (coeffs3 (plyContribution mm i)))
            (seq 0 (length (_phi mm))) b.

(** The size assertion [eval_into] ends on when [sizes_ok] is false. *)
Definition firstSizeFailure (mm : gsMaterialMatrixD) : failure :=
  if negb (Nat.eqb (length (_YoungsModuli mm)) (length (_PoissonRatios mm)))
  then SizeYoungPoisson
  else if negb (Nat.eqb (length (_YoungsModuli mm)) (length (_ShearModuli mm)))
  then SizeYoungShear
  else if negb (Nat.eqb (length (_thickness mm)) (length (_phi mm)))
  then SizeThicknessPhi
  else if negb (Nat.eqb (length (_YoungsModuli mm)) (length (_thickness mm)))
  then SizeYoungThickness
  else NoLaminates.

(** A column of 9 coefficients that is a symmetric 3 x 3 matrix. *)
Definition symmetricColumn (l : list R) : Prop :=
  nth 1 l 0 = nth 3 l 0 /\ nth 2 l 0 = nth 6 l 0 /\ nth 5 l 0 = nth 7 l 0.

(** The same laminate with every fibre angle turned by a half turn. *)
Definition halfTurned (mm : gsMaterialMatrixD) : gsMaterialMatrixD :=
  mkMaterialMatrixD (_YoungsModuli mm) (_ShearModuli mm) (_PoissonRatios mm)
                    (_thickness mm) (map (fun a => a + PI) (_phi mm)).


(** A field whose evaluation is not implemented. *)
Definition failingField : gsFunction :=
  mkFun 1 1 (fun _ _ => Failed NoImplementation).

(** A laminate without plies. *)
Definition noPlies : gsMaterialMatrixD := mkMaterialMatrixD [] [] [] [] [].


(** The quadrature sum of a scalar function [h] on the mesh of [kv]:
    the weights times the values at the nodes. *)
Definition quadratureOf (kv : gsKnotVector) (h : R -> R) : R :=
  fold_right (fun nw acc => snd nw * h (fst nw) + acc) 0 (quRule kv).


(* ================================================================ *)
(** * Lists and matrices: basic facts *)


(** The cofactor formula does invert a matrix of non-zero determinant. *)
Lemma inverse_right (a : mat3) :
  determinant a <> 0 -> mul a (inverse a) = identity3.
Proof.
  destruct a as [a00 a01 a02 a10 a11 a12 a20 a21 a22].
  unfold mul, inverse, identity3, determinant;
    cbn [m00 m01 m02 m10 m11 m12 m20 m21 m22].
  intros Hdet. f_equal; field; exact Hdet.
Qed.

Lemma upd_length {A : Type} (i : nat) (v : A) (l : list A) :
  length (upd i v l) = length l.
Proof.
  revert i; induction l as [|h t IH]; intros [|i]; simpl; auto.
Qed.

Lemma nth_upd_same {A : Type} (i : nat) (v d : A) (l : list A) :
  (i < length l)%nat -> nth i (upd i v l) d = v.
Proof.
  revert i; induction l as [|h t IH]; intros [|i] Hi; simpl in *;
    try lia; auto.
  apply IH; lia.
Qed.

Lemma nth_upd_other {A : Type} (i k : nat) (v d : A) (l : list A) :
  i <> k -> nth k (upd i v l) d = nth k l d.
Proof.
  revert i k; induction l as [|h t IH]; intros [|i] [|k] Hik; simpl;
    auto; try congruence.
Qed.

Lemma chunk_length (r c : nat) (l : list R) : length (chunk r c l) = c.
Proof.
  revert l; induction c as [|c IH]; intros l; simpl; auto.
Qed.

Lemma chunk_columns (r c : nat) (l : list R) :
  length l = (r * c)%nat ->
  Forall (fun x => length x = r) (chunk r c l).
Proof.
  revert l; induction c as [|c IH]; intros l Hl; simpl; constructor.
  - rewrite length_firstn. lia.
  - apply IH. rewrite length_skipn. lia.
Qed.

Lemma concat_columns_length (m : gsMatrix) :
  wf m -> length (concat (columns m)) = (rows m * cols m)%nat.
Proof.
  unfold wf, cols. generalize (rows m) as r.
  induction (columns m) as [|c cs IH]; intros r H; simpl.
  - lia.
  - inversion H; subst. rewrite length_app, (IH (length c)) by assumption. lia.
Qed.

Lemma resize_rows (r c : nat) (m : gsMatrix) : rows (resize r c m) = r.
Proof. unfold resize. destruct (Nat.eqb _ _); reflexivity. Qed.

Lemma resize_cols (r c : nat) (m : gsMatrix) : cols (resize r c m) = c.
Proof.
  unfold resize, cols. destruct (Nat.eqb _ _); simpl; apply chunk_length.
Qed.

Lemma resize_wf (r c : nat) (m : gsMatrix) : wf m -> wf (resize r c m).
Proof.
  intros Hm. unfold resize, wf.
  destruct (Nat.eqb (r * c) (rows m * cols m)) eqn:E; simpl.
  - apply chunk_columns. rewrite concat_columns_length by assumption.
    apply Nat.eqb_eq in E. lia.
  - apply chunk_columns. now rewrite length_map, length_seq.
Qed.

Lemma concat_repeat_singleton {A : Type} (x : A) (n : nat) :
  concat (repeat [x] n) = repeat x n.
Proof. induction n as [|n IH]; simpl; congruence. Qed.

(** The two block assignments of [gsIntegrantZ::eval_into] build, in
    every column, the base point followed by the coordinate [z]. *)
Lemma stack_point_over_z (p : list R) (us T : list (list R)) :
  length T = length us ->
  Forall (fun c => length c = 1%nat) us ->
  map (fun sd => firstn (length p) (snd sd) ++ firstn 1 (fst sd))
      (combine us
         (map (fun sd => firstn (length p) (fst sd) ++ skipn (length p) (snd sd))
              (combine (repeat p (length us)) T)))
  = map (fun c => p ++ c) us.
Proof.
  revert T; induction us as [|c us IH]; intros [|d T] HT Hus;
    try discriminate; auto.
  inversion Hus as [|c' us' Hc Hrest]; subst.
  cbn [length repeat combine map fst snd]. f_equal.
  - rewrite firstn_app, firstn_firstn, Nat.min_id, length_firstn, Nat.min_id,
      Nat.sub_diag, firstn_all, firstn_O, app_nil_r.
    f_equal. apply firstn_all2. lia.
  - apply IH; auto.
Qed.

(** C3.  The z-extended field adapter, with a stored base point [p]
    (one column, of dimension one less than the domain of the wrapped
    field) and an input [u] with one row, evaluates the wrapped field
    at the points [concat(p, z)], one per column of [u]; its domain
    dimension is 1 and its target dimension is the one of the wrapped
    field. *)
Theorem gsIntegrantZ_eval_into_concat
    (a : gsIntegrantZ) (p : list R) (u res : gsMatrix) :
  domainDim (iz_fun a) = (length p + 1)%nat ->
  rows u = 1%nat ->
  wf u ->
  let adapter := setPoint (mkMat (length p) [p]) a in
  gsIntegrantZ_eval_into adapter u res
    = eval_into (iz_fun a) (concatPoint p u) res
  /\ domainDim (gsIntegrantZ_fun adapter) = 1%nat
  /\ targetDim (gsIntegrantZ_fun adapter) = targetDim (iz_fun a).
Proof.
  intros Hd Hr Hwf adapter. split; [|split; reflexivity].
  unfold gsIntegrantZ_eval_into, adapter, setPoint, GISMO_ASSERT, bind, cols.
  cbn [iz_fun iz_surfPts iz_tmp rows columns length].
  rewrite Hr, Hd, !Nat.eqb_refl.
  f_equal. unfold concatPoint, assign_bottomRows, assign_topRows, replicate.
  cbn [rows columns map repeat concat].
  rewrite resize_rows, Hr, app_nil_r, concat_repeat_singleton.
  replace (length p + 1 - 1)%nat with (length p) by lia.
  f_equal.
  unfold wf in Hwf. rewrite Hr in Hwf.
  apply stack_point_over_z; auto.
  apply (resize_cols (length p + 1) (length (columns u)) (iz_tmp a)).
Qed.

(* ================================================================ *)
(** * Counted loops that fill a matrix *)

Lemma forM_app {St : Type} (l1 l2 : list nat) (body : nat -> St -> outcome St) (s : St) :
  forM (l1 ++ l2) body s = (s' <- forM l1 body s ;; forM l2 body s').
Proof.
  revert s; induction l1 as [|i l1 IH]; intros s; simpl; auto.
  destruct (body i s); simpl; auto.
Qed.

(** Invariant rule for a loop that returns. *)
Lemma forM_seq_inv {St : Type} (body : nat -> St -> outcome St)
    (P : nat -> St -> Prop) (n : nat) (s0 s' : St) :
  P 0%nat s0 ->
  (forall k s t, (k < n)%nat -> P k s -> body k s = Ok t -> P (S k) t) ->
  forM (seq 0 n) body s0 = Ok s' ->
  P n s'.
Proof.
  intros H0. revert s'.
  induction n as [|n IH]; intros s' Hstep Hrun.
  - simpl in Hrun. inversion Hrun; subst; assumption.
  - rewrite seq_S, forM_app in Hrun. simpl in Hrun.
    destruct (forM (seq 0 n) body s0) as [s1|e] eqn:E1; simpl in Hrun;
      [|discriminate].
    destruct (body n s1) as [s2|e] eqn:E2; [|discriminate].
    inversion Hrun; subst.
    apply (Hstep n s1); [lia| |exact E2].
    apply IH; auto.
    intros k s t Hk. apply Hstep. lia.
Qed.

(** A loop whose body returns under an invariant returns. *)
Lemma forM_progress {St : Type} (body : nat -> St -> outcome St)
    (Q : St -> Prop) (idx : list nat) (s0 : St) :
  Q s0 ->
  (forall k s, In k idx -> Q s -> exists t, body k s = Ok t /\ Q t) ->
  exists s', forM idx body s0 = Ok s' /\ Q s'.
Proof.
  revert s0; induction idx as [|i idx IH]; intros s0 H0 Hstep; simpl.
  - eauto.
  - destruct (Hstep i s0) as [t [Ht Qt]]; simpl; auto.
    rewrite Ht. apply IH; auto.
    intros k s Hk. apply Hstep. now right.
Qed.

Lemma set_coef_rows (i j : nat) (v : R) (m : gsMatrix) :
  rows (set_coef i j v m) = rows m.
Proof. reflexivity. Qed.

Lemma set_coef_cols (i j : nat) (v : R) (m : gsMatrix) :
  cols (set_coef i j v m) = cols m.
Proof. unfold cols, set_coef; simpl. apply upd_length. Qed.

Lemma col_length (m : gsMatrix) (j : nat) :
  wf m -> (j < cols m)%nat -> length (col m j) = rows m.
Proof.
  unfold wf, col, cols. intros H Hj.
  rewrite Forall_forall in H. apply H. now apply nth_In.
Qed.

Lemma set_coef_wf (i j : nat) (v : R) (m : gsMatrix) :
  wf m -> wf (set_coef i j v m).
Proof.
  intros H. unfold wf. rewrite set_coef_rows.
  apply Forall_forall. intros c Hc.
  destruct (In_nth _ _ [] Hc) as [k [Hk Hnth]].
  fold (cols (set_coef i j v m)) in Hk. rewrite set_coef_cols in Hk.
  unfold set_coef in Hnth; simpl in Hnth.
  destruct (Nat.eq_dec j k) as [->|Hjk].
  - rewrite nth_upd_same in Hnth by exact Hk. subst c.
    rewrite upd_length. now apply col_length.
  - rewrite nth_upd_other in Hnth by exact Hjk. subst c.
    now apply (col_length m k).
Qed.

Lemma coef_set_coef_same (i j : nat) (v : R) (m : gsMatrix) :
  wf m -> (i < rows m)%nat -> (j < cols m)%nat ->
  coef (set_coef i j v m) i j = v.
Proof.
  intros H Hi Hj. unfold coef, col, set_coef; simpl.
  rewrite nth_upd_same by exact Hj.
  apply nth_upd_same. fold (col m j). rewrite col_length; auto.
Qed.

Lemma coef_set_coef_other (i j i' j' : nat) (v : R) (m : gsMatrix) :
  (i, j) <> (i', j') ->
  coef (set_coef i j v m) i' j' = coef m i' j'.
Proof.
  intros Hne. unfold coef, col, set_coef; simpl.
  destruct (Nat.eq_dec j j') as [->|Hj].
  - destruct (Nat.lt_ge_cases j' (length (columns m))) as [Hlt|Hge].
    + rewrite nth_upd_same by exact Hlt.
      apply nth_upd_other. congruence.
    + rewrite (nth_overflow (upd _ _ _)) by (rewrite upd_length; lia).
      rewrite (nth_overflow (columns m)) by lia. reflexivity.
  - now rewrite nth_upd_other.
Qed.

Lemma nth_map_seq {A : Type} (f : nat -> A) (n j : nat) (d : A) :
  (j < n)%nat -> nth j (map f (seq 0 n)) d = f j.
Proof.
  intros Hj.
  rewrite (nth_indep (map f (seq 0 n)) d (f 0%nat))
    by (rewrite length_map, length_seq; lia).
  rewrite (map_nth f), seq_nth by lia. reflexivity.
Qed.

(** A well-formed matrix is determined by its shape and coefficients. *)
Lemma tabulate_unique (D N : nat) (V : nat -> nat -> R) (m : gsMatrix) :
  wf m -> rows m = D -> cols m = N ->
  (forall i j, (i < D)%nat -> (j < N)%nat -> coef m i j = V i j) ->
  m = tabulate D N V.
Proof.
  intros Hwf Hr Hc Hv. destruct m as [r cs]. unfold tabulate.
  simpl in Hr. subst r. f_equal.
  unfold cols in Hc; simpl in Hc.
  apply (nth_ext _ _ [] []).
  - now rewrite length_map, length_seq.
  - intros j Hj. rewrite Hc in Hj.
    rewrite nth_map_seq by exact Hj.
    assert (Hlen : length (nth j cs []) = D).
    { apply (col_length (mkMat D cs) j); auto. unfold cols; simpl; lia. }
    apply (nth_ext _ _ 0 0).
    + now rewrite length_map, length_seq.
    + intros i Hi. rewrite Hlen in Hi.
      rewrite nth_map_seq by exact Hi.
      apply (Hv i j); auto.
Qed.

Section FillLoop.

Variable St : Type.
Variable mat : St -> gsMatrix.
Variable body : nat -> nat -> St -> outcome St.
Variable V : nat -> nat -> R.
Variable Q : St -> Prop.
Variables D N : nat.

(** A body that returns has written [V i j] to the coefficient
    [(i,j)] and kept [Q]. *)
Hypothesis body_writes :
  forall i j s t, (i < D)%nat -> (j < N)%nat -> Q s -> body i j s = Ok t ->
                  Q t /\ mat t = set_coef i j (V i j) (mat s).

Let filled (i l : nat) (s : St) : Prop :=
  Q s /\ wf (mat s) /\ rows (mat s) = D /\ cols (mat s) = N /\
  (forall i' j, (i' < i)%nat -> (j < N)%nat -> coef (mat s) i' j = V i' j) /\
  (forall j, (j < l)%nat -> coef (mat s) i j = V i j).

Lemma fill_row (i : nat) (s s' : St) :
  (i < D)%nat -> filled i 0 s ->
  forM (seq 0 N) (body i) s = Ok s' ->
  filled (S i) 0 s'.
Proof.
  intros Hi H0 Hrun.
  assert (H : filled i N s').
  { apply (forM_seq_inv (body i) (filled i) N s s'); auto.
    clear s s' H0 Hrun.
    intros j s t Hj (HQ & Hwf & Hr & Hc & Hdone & Hrow) Hb.
    destruct (body_writes i j s t Hi Hj HQ Hb) as [HQt Hm].
    unfold filled. rewrite Hm, set_coef_rows, set_coef_cols.
    repeat split; auto using set_coef_wf.
    - intros i' j' Hi' Hj'. rewrite coef_set_coef_other; auto.
      intros E; inversion E; lia.
    - intros j' Hj'. destruct (Nat.eq_dec j' j) as [->|Hne].
      + apply coef_set_coef_same; auto; lia.
      + rewrite coef_set_coef_other; [apply Hrow; lia|].
        intros E; inversion E; lia. }
  destruct H as (HQ & Hwf & Hr & Hc & Hdone & Hrow).
  unfold filled. repeat split; auto; try (intros; lia).
  intros i' j Hi' Hj. destruct (Nat.eq_dec i' i) as [->|Hne].
  - apply Hrow; auto.
  - apply Hdone; auto; lia.
Qed.

(** When the two nested loops return, the matrix holds [V]. *)
Lemma fill_loop_returns (s0 s' : St) :
  Q s0 -> wf (mat s0) -> rows (mat s0) = D -> cols (mat s0) = N ->
  forM (seq 0 D) (fun i => forM (seq 0 N) (body i)) s0 = Ok s' ->
  Q s' /\ mat s' = tabulate D N V.
Proof.
  intros HQ Hwf Hr Hc Hrun.
  assert (H : filled D 0 s').
  { apply (forM_seq_inv (fun i => forM (seq 0 N) (body i))
                        (fun i => filled i 0) D s0 s'); auto.
    - unfold filled. repeat split; auto; intros; lia.
    - intros i s t Hi Hs Hb. now apply (fill_row i s t). }
  destruct H as (HQ' & Hwf' & Hr' & Hc' & Hdone & _).
  split; auto. now apply tabulate_unique.
Qed.

(** When every run of the body returns, so do the loops. *)
Lemma fill_loop_progress (s0 : St) :
  (forall i j s, (i < D)%nat -> (j < N)%nat -> Q s ->
                 exists t, body i j s = Ok t) ->
  Q s0 ->
  exists s', forM (seq 0 D) (fun i => forM (seq 0 N) (body i)) s0 = Ok s'.
Proof.
  intros Hbody HQ.
  destruct (forM_progress (fun i => forM (seq 0 N) (body i)) Q (seq 0 D) s0)
    as [s' [Hs' _]]; eauto.
  intros i s Hi HQs. apply in_seq in Hi.
  apply (forM_progress (body i) Q (seq 0 N) s HQs).
  intros j r Hj Hr. apply in_seq in Hj.
  destruct (Hbody i j r) as [t Ht]; try lia; auto.
  exists t; split; auto.
  apply (body_writes i j r t); auto; lia.
Qed.

End FillLoop.

(* ================================================================ *)
(** * The thickness integrator with a fixed bound *)

(** Two loops over the same indices whose bodies fail alike end alike. *)
Lemma forM_same_failure {S1 S2 : Type}
    (b1 : nat -> S1 -> outcome S1) (b2 : nat -> S2 -> outcome S2)
    (idx : list nat) (s1 : S1) (s2 : S2) :
  (forall k x y, match b1 k x, b2 k y with
                 | Ok _, Ok _ => True
                 | Failed e1, Failed e2 => e1 = e2
                 | _, _ => False
                 end) ->
  match forM idx b1 s1, forM idx b2 s2 with
  | Ok _, Ok _ => True
  | Failed e1, Failed e2 => e1 = e2
  | _, _ => False
  end.
Proof.
  intros Hb. revert s1 s2.
  induction idx as [|i idx IH]; intros s1 s2; simpl; auto.
  specialize (Hb i s1 s2).
  destruct (b1 i s1), (b2 i s2); try contradiction; auto.
  apply IH.
Qed.

Lemma gsIntegrateZ_returns_table (I : gsIntegrateZ) (u res0 res : gsMatrix) :
  wf res0 ->
  gsIntegrateZ_eval_into I u res0 = Ok res ->
  res = tabulate (targetDim (z_fun I)) (cols u)
          (fun i _ => valueOf (integral (fixedKV (z_t I)) (z_fun I) i)).
Proof.
  intros Hwf Hrun. unfold gsIntegrateZ_eval_into in Hrun.
  apply (fill_loop_returns gsMatrix (fun m => m)
           (fun i j r => v <- integral (fixedKV (z_t I)) (z_fun I) i ;;
                         Ok (set_coef i j v r))
           (fun i _ => valueOf (integral (fixedKV (z_t I)) (z_fun I) i))
           (fun _ => True) (targetDim (z_fun I)) (cols u))
    in Hrun; auto using resize_wf, resize_rows, resize_cols.
  - tauto.
  - intros i j s t _ _ _ Hb.
    destruct (integral (fixedKV (z_t I)) (z_fun I) i); simpl in *;
      inversion Hb; auto.
Qed.

Lemma gsIntegrateZ_same_outcome (I : gsIntegrateZ) (u v ru rv : gsMatrix) :
  cols u = cols v ->
  match gsIntegrateZ_eval_into I u ru, gsIntegrateZ_eval_into I v rv with
  | Ok _, Ok _ => True
  | Failed e1, Failed e2 => e1 = e2
  | _, _ => False
  end.
Proof.
  intros Hc. unfold gsIntegrateZ_eval_into. rewrite Hc.
  apply forM_same_failure. intros i x y.
  apply forM_same_failure. intros j x' y'.
  destruct (integral _ (z_fun I) i); simpl; auto.
Qed.

(** C10.  The output of the fixed-bound integrator does not depend on
    the values of the input points: two inputs with the same number of
    columns give the same outcome, and all columns of a result are the
    same. *)
Theorem gsIntegrateZ_ignores_points (I : gsIntegrateZ) (u v ru rv : gsMatrix) :
  wf ru -> wf rv ->
  cols u = cols v ->
  gsIntegrateZ_eval_into I u ru = gsIntegrateZ_eval_into I v rv
  /\ forall res j j',
       gsIntegrateZ_eval_into I u ru = Ok res ->
       (j < cols u)%nat -> (j' < cols u)%nat ->
       col res j = col res j'.
Proof.
  intros Hu Hv Hc. split.
  - pose proof (gsIntegrateZ_same_outcome I u v ru rv Hc) as Hsame.
    destruct (gsIntegrateZ_eval_into I u ru) as [a|e] eqn:Eu,
             (gsIntegrateZ_eval_into I v rv) as [b|e'] eqn:Ev;
      try contradiction; [|congruence].
    apply gsIntegrateZ_returns_table in Eu; auto.
    apply gsIntegrateZ_returns_table in Ev; auto.
    rewrite Eu, Ev, Hc. reflexivity.
  - intros res j j' Hrun Hj Hj'.
    apply gsIntegrateZ_returns_table in Hrun; auto. subst res.
    unfold col, tabulate; simpl.
    now rewrite !nth_map_seq.
Qed.

Lemma quadSum_constant (c : list R) (D i : nat) (q : list (R * R)) :
  forall (k : nat) (cs : list (list R)),
    (forall j, (k <= j < k + length q)%nat -> nth j cs [] = c) ->
    quadSum i k (map snd q) (mkMat D cs) = nth i c 0 * sumWeights q.
Proof.
  unfold sumWeights.
  induction q as [|[x w] q IH]; intros k cs Hcs; simpl.
  - ring.
  - rewrite (IH (S k) cs).
    + unfold coef, col; simpl. rewrite Hcs by (simpl; lia). ring.
    + intros j Hj. apply Hcs. simpl; lia.
Qed.

Lemma integral_constant (kv : gsKnotVector) (c : list R) (d i : nat) :
  integral kv (constantFunction c d) i = Ok (nth i c 0 * sumWeights (quRule kv)).
Proof.
  unfold integral, constantFunction, pointwise; simpl.
  f_equal. apply quadSum_constant.
  intros j Hj. rewrite !map_map.
  rewrite (nth_indep _ [] c) by (rewrite length_map; lia).
  apply (map_nth (fun _ => c) (quRule kv) (0, 0)).
Qed.

Lemma tabulate_ext (D N : nat) (V W : nat -> nat -> R) :
  (forall i j, (i < D)%nat -> (j < N)%nat -> V i j = W i j) ->
  tabulate D N V = tabulate D N W.
Proof.
  intros H. unfold tabulate. f_equal.
  apply map_ext_in. intros j Hj. apply in_seq in Hj.
  apply map_ext_in. intros i Hi. apply in_seq in Hi.
  apply H; lia.
Qed.

Lemma gsIntegrateZ_returns (I : gsIntegrateZ) (u res0 : gsMatrix) (V : nat -> R) :
  wf res0 ->
  (forall i, (i < targetDim (z_fun I))%nat ->
             integral (fixedKV (z_t I)) (z_fun I) i = Ok (V i)) ->
  gsIntegrateZ_eval_into I u res0
    = Ok (tabulate (targetDim (z_fun I)) (cols u) (fun i _ => V i)).
Proof.
  intros Hwf HV.
  destruct (fill_loop_progress gsMatrix (fun m => m)
              (fun i j r => v <- integral (fixedKV (z_t I)) (z_fun I) i ;;
                            Ok (set_coef i j v r))
              (fun i _ => V i)
              (fun _ => True) (targetDim (z_fun I)) (cols u))
    with (s0 := resize (targetDim (z_fun I)) (cols u) res0) as [s' Hs']; auto.
  - intros i j s t Hi _ _ Hb. rewrite (HV i Hi) in Hb. simpl in Hb.
    inversion Hb; auto.
  - intros i j s Hi _ _. rewrite (HV i Hi). simpl. eauto.
  - change (gsIntegrateZ_eval_into I u res0 = Ok s') in Hs'.
    rewrite Hs'. f_equal.
    rewrite (gsIntegrateZ_returns_table I u res0 s' Hwf Hs').
    apply tabulate_ext. intros i j Hi _. now rewrite (HV i Hi).
Qed.

Lemma tabulate_constant_columns (c : list R) (N : nat) (g : R -> R) :
  tabulate (length c) N (fun i _ => g (nth i c 0))
  = mkMat (length c) (repeat (map g c) N).
Proof.
  unfold tabulate. f_equal.
  assert (Hcol : map (fun i => g (nth i c 0)) (seq 0 (length c)) = map g c).
  { apply (nth_ext _ _ 0 0).
    - now rewrite !length_map, length_seq.
    - intros i Hi. rewrite length_map, length_seq in Hi.
      rewrite nth_map_seq by exact Hi.
      rewrite (nth_indep (map g c) 0 (g 0)) by (rewrite length_map; lia).
      now rewrite (map_nth g). }
  rewrite Hcol. clear Hcol.
  generalize 0%nat as a.
  induction N as [|N IH]; intros a; simpl; auto. now rewrite IH.
Qed.

(** C7.  With a quadrature that integrates constants exactly (its
    weights add up to the length of the interval), the fixed-bound
    integrator of thickness [t] maps the constant field [c] to [c * t]
    in every column. *)
Theorem gsIntegrateZ_constant (c : list R) (d : nat) (t : R) (u res0 : gsMatrix) :
  (forall kv, kv_first kv < kv_last kv ->
              sumWeights (quRule kv) = kv_last kv - kv_first kv) ->
  0 < t ->
  wf res0 ->
  gsIntegrateZ_eval_into (mkIntegrateZ (constantFunction c d) t) u res0
    = Ok (mkMat (length c) (repeat (map (fun ci => ci * t) c) (cols u))).
Proof.
  intros Hq Ht Hwf.
  rewrite (gsIntegrateZ_returns _ u res0 (fun i => nth i c 0 * t) Hwf).
  - f_equal. apply (tabulate_constant_columns c (cols u) (fun ci => ci * t)).
  - intros i _. cbn [z_fun z_t].
    rewrite integral_constant, Hq; simpl; [|lra].
    f_equal. field.
Qed.

(* ================================================================ *)
(** * The thickness integrator with a thickness field *)

Lemma gsIntegrate_returns (I : gsIntegrate) (u res0 thickMat : gsMatrix)
    (V : nat -> nat -> R) :
  wf res0 ->
  eval_into (v_t I) u (v_thickMat I) = Ok thickMat ->
  (forall i j, (i < targetDim (v_fun I))%nat -> (j < cols u)%nat ->
     integral (variableKV (coef thickMat 0 j / 2)) (adapterAt (v_fun I) u j) i
     = Ok (V i j)) ->
  gsIntegrate_eval_into I u res0
    = Ok (tabulate (targetDim (v_fun I)) (cols u) V).
Proof.
  intros Hwf Ht HV.
  unfold gsIntegrate_eval_into. rewrite Ht. cbn [bind].
  set (Q := fun st : gsMatrix * gsIntegrantZ =>
              iz_fun (snd st) = v_fun I /\ iz_tmp (snd st) = emptyMat).
  assert (Hbody : forall i j st, (i < targetDim (v_fun I))%nat ->
            (j < cols u)%nat -> Q st ->
            gsIntegrate_body u thickMat i j st
            = Ok (set_coef i j (V i j) (fst st),
                  setPoint (colMat u j) (gsIntegrantZ_make (v_fun I)))).
  { intros i j [m a] Hi Hj [Hf Htmp]. simpl in Hf, Htmp.
    unfold gsIntegrate_body. cbn [fst snd].
    replace (setPoint (colMat u j) a)
      with (setPoint (colMat u j) (gsIntegrantZ_make (v_fun I)))
      by (unfold setPoint, gsIntegrantZ_make; simpl; now rewrite Hf, Htmp).
    fold (adapterAt (v_fun I) u j). fold (variableKV (coef thickMat 0 j / 2)).
    rewrite (HV i j Hi Hj). reflexivity. }
  set (s0 := (resize (targetDim (v_fun I)) (cols u) res0,
              gsIntegrantZ_make (v_fun I))).
  assert (HQ0 : Q s0) by (split; reflexivity).
  assert (Hwrites : forall i j s t, (i < targetDim (v_fun I))%nat ->
            (j < cols u)%nat -> Q s ->
            gsIntegrate_body u thickMat i j s = Ok t ->
            Q t /\ fst t = set_coef i j (V i j) (fst s)).
  { intros i j s t Hi Hj HQ Hb. rewrite (Hbody i j s Hi Hj HQ) in Hb.
    inversion Hb; subst. split; [split|]; reflexivity. }
  destruct (fill_loop_progress (gsMatrix * gsIntegrantZ) fst
              (gsIntegrate_body u thickMat) V Q
              (targetDim (v_fun I)) (cols u) Hwrites s0) as [s' Hs']; auto.
  { intros i j s Hi Hj HQ. rewrite (Hbody i j s Hi Hj HQ). eauto. }
  rewrite Hs'. cbn [bind]. f_equal.
  apply (fill_loop_returns (gsMatrix * gsIntegrantZ) fst
           (gsIntegrate_body u thickMat) V Q
           (targetDim (v_fun I)) (cols u) Hwrites s0 s'); auto;
    unfold s0; cbn [fst];
    auto using resize_wf, resize_rows, resize_cols.
Qed.

(* ================================================================ *)
(** * The isotropic material matrix *)

Lemma Forall_upd {A : Type} (P : A -> Prop) (i : nat) (x : A) (l : list A) :
  Forall P l -> P x -> Forall P (upd i x l).
Proof.
  intros Hl Hx. revert i.
  induction Hl as [|h t Hh Ht IH]; intros [|i]; simpl; auto.
Qed.

Lemma fold_left_seq_inv {St : Type} (body : St -> nat -> St)
    (P : nat -> St -> Prop) (n : nat) (s0 : St) :
  P 0%nat s0 ->
  (forall k s, (k < n)%nat -> P k s -> P (S k) (body s k)) ->
  P n (fold_left body (seq 0 n) s0).
Proof.
  intros H0. induction n as [|n IH]; intros Hstep; [simpl; auto|].
  rewrite seq_S, fold_left_app. simpl.
  apply Hstep; [lia|]. apply IH. intros k s Hk. apply Hstep. lia.
Qed.

Lemma columns_unique (N : nat) (T : nat -> list R) (cs : list (list R)) :
  length cs = N ->
  (forall j, (j < N)%nat -> nth j cs [] = T j) ->
  cs = map T (seq 0 N).
Proof.
  intros Hlen Hcs. apply (nth_ext _ _ [] []).
  - now rewrite length_map, length_seq.
  - intros j Hj. rewrite Hlen in Hj.
    rewrite nth_map_seq by exact Hj. now apply Hcs.
Qed.

Lemma map_nth_seq {A : Type} (F : list R -> A) (l : list (list R)) :
  map (fun i => F (nth i l [])) (seq 0 (length l)) = map F l.
Proof.
  induction l as [|c l IH]; simpl; auto.
  f_equal. rewrite <- seq_shift, map_map. exact IH.
Qed.

Lemma tensorAt_length (jac : vec3 * vec3) (n : vec3) (E nu z : R) :
  length (tensorAt jac n E nu z) = 9%nat.
Proof. reflexivity. Qed.

(** The nine assignments and the scaling overwrite the whole column. *)
Lemma gsMaterialMatrix_body_column (tmp : gsMapData) (Emat Nmat u m : gsMatrix)
    (i : nat) :
  length (col m i) = 9%nat ->
  gsMaterialMatrix_body tmp Emat Nmat u m i
  = mkMat (rows m) (upd i (tensorOfColumn tmp Emat Nmat u i) (columns m)).
Proof.
  intros Hlen. unfold gsMaterialMatrix_body, tensorOfColumn, tensorAt.
  destruct (col m i) as [|a0 [|a1 [|a2 [|a3 [|a4 [|a5 [|a6 [|a7 [|a8 [|a9 l]]]]]]]]]];
    try discriminate Hlen.
  reflexivity.
Qed.

Lemma gsMaterialMatrix_loop (tmp : gsMapData) (Emat Nmat u m0 : gsMatrix) (N : nat) :
  wf m0 -> rows m0 = 9%nat -> cols m0 = N ->
  fold_left (gsMaterialMatrix_body tmp Emat Nmat u) (seq 0 N) m0
  = mkMat 9 (map (tensorOfColumn tmp Emat Nmat u) (seq 0 N)).
Proof.
  intros Hwf Hr Hc.
  pose (P := fun (k : nat) (m : gsMatrix) =>
               wf m /\ rows m = 9%nat /\ cols m = N /\
               forall j, (j < k)%nat -> col m j = tensorOfColumn tmp Emat Nmat u j).
  assert (H : P N (fold_left (gsMaterialMatrix_body tmp Emat Nmat u) (seq 0 N) m0)).
  { apply fold_left_seq_inv.
    - unfold P. repeat split; auto. intros; lia.
    - intros k m Hk (Hwfm & Hrm & Hcm & Hdone).
      rewrite gsMaterialMatrix_body_column
        by (rewrite col_length; auto; lia).
      unfold P, wf, cols, col in *; cbn [rows columns].
      rewrite upd_length. repeat split; auto.
      + apply Forall_upd; [assumption | rewrite Hrm; reflexivity].
      + intros j Hj. destruct (Nat.eq_dec j k) as [->|Hne].
        * apply nth_upd_same. lia.
        * rewrite nth_upd_other by auto. apply Hdone. lia. }
  destruct H as (_ & Hr' & Hc' & Hcols).
  destruct (fold_left _ _ m0) as [r cs]. simpl in Hr'. subst r.
  f_equal. now apply columns_unique.
Qed.

(** The material values and the tensors of all columns. *)
Lemma gsMaterialMatrix_eval_into_columns (mm : gsMaterialMatrix) (u res0 : gsMatrix) :
  wf res0 ->
  gsMaterialMatrix_eval_into mm u res0
  = (let tmp := computeMap (mm_mp mm 0) (topRows 2 u) in
     Emat <- eval_into (mm_YoungsModulus mm) (md_values0 tmp) (mm_Emat mm) ;;
     Nmat <- eval_into (mm_PoissonRatio mm) (md_values0 tmp) (mm_Nmat mm) ;;
     Ok (mkMat 9 (map (tensorOfColumn tmp Emat Nmat u) (seq 0 (cols u))))).
Proof.
  intros Hwf. unfold gsMaterialMatrix_eval_into. cbv zeta.
  destruct (eval_into (mm_YoungsModulus mm) _ _) as [Emat|e]; [|reflexivity].
  destruct (eval_into (mm_PoissonRatio mm) _ _) as [Nmat|e]; [|reflexivity].
  cbn [bind]. f_equal.
  apply gsMaterialMatrix_loop;
    auto using resize_wf, resize_rows, resize_cols.
Qed.

Lemma nth_map_lt {A B : Type} (f : A -> B) (l : list A) (i : nat) (d : B) (d' : A) :
  (i < length l)%nat -> nth i (map f l) d = f (nth i l d').
Proof.
  intros Hi. rewrite (nth_indep (map f l) d (f d')) by (rewrite length_map; lia).
  apply map_nth.
Qed.

Lemma col_topRows (k : nat) (u : gsMatrix) (i : nat) :
  col (topRows k u) i = firstn k (col u i).
Proof.
  unfold col, topRows; simpl.
  rewrite <- (map_nth (firstn k)). now rewrite firstn_nil.
Qed.

Lemma gsMaterialMatrix_pointwise_fields
    (g : nat -> gsGeometry) (dE DE dN DN : nat) (fE fNu : list R -> list R)
    (Emat0 Nmat0 u res0 : gsMatrix) :
  wf res0 ->
  gsMaterialMatrix_eval_into
    (mkMaterialMatrix g (pointwise dE DE fE) (pointwise dN DN fNu) Emat0 Nmat0)
    u res0
  = Ok (mkMat 9 (map (tensorOfPoint (g 0%nat) fE fNu) (columns u))).
Proof.
  intros Hwf. rewrite gsMaterialMatrix_eval_into_columns by exact Hwf.
  cbn [mm_mp mm_YoungsModulus mm_PoissonRatio mm_Emat mm_Nmat pointwise
       eval_into bind]. cbv zeta.
  cbn [bind]. f_equal. f_equal.
  rewrite <- (map_nth_seq (tensorOfPoint (g 0%nat) fE fNu)).
  apply map_ext_in. intros i Hi. apply in_seq in Hi.
  assert (Hlt : (i < length (columns u))%nat) by (unfold cols in Hi; lia).
  unfold tensorOfColumn, tensorOfPoint, computeMap.
  cbn [md_jacobian md_normal md_values0 md_points columns].
  rewrite col_topRows. unfold coef, col. cbn [columns topRows].
  rewrite !(nth_map_lt _ _ i [] []) by (rewrite ?length_map; exact Hlt).
  reflexivity.
Qed.

(** C5 (amended).  The Young's modulus and Poisson's ratio entering the
    tensor of the query point [(x, y, z)] are the values of the two
    fields at the image of [(x, y)] under the geometry map
    ([_tmp.values[0]]), not at the parametric point [(x, y)] itself. *)
Theorem gsMaterialMatrix_material_values
    (g : nat -> gsGeometry) (dE DE dN DN : nat) (fE fNu : list R -> list R)
    (Emat0 Nmat0 u res0 : gsMatrix) :
  wf res0 ->
  gsMaterialMatrix_eval_into
    (mkMaterialMatrix g (pointwise dE DE fE) (pointwise dN DN fNu) Emat0 Nmat0)
    u res0
  = Ok (mkMat 9
          (map (fun c =>
                  let xy := firstn 2 c in
                  let E := nth 0 (fE (geo_eval (g 0%nat) xy)) 0 in
                  let nu := nth 0 (fNu (geo_eval (g 0%nat) xy)) 0 in
                  tensorAt (geo_jacobian (g 0%nat) xy) (geo_normal (g 0%nat) xy)
                           E nu (nth 2 c 0))
               (columns u))).
Proof.
  intros Hwf. now apply gsMaterialMatrix_pointwise_fields.
Qed.

Lemma normalized_e_z : normalized e_z = e_z.
Proof.
  unfold normalized, squaredNorm, e_z; simpl.
  destruct (Rlt_dec 0 (0 * 0 + 0 * 0 + 1 * 1)) as [_|H]; [|exfalso; lra].
  replace (0 * 0 + 0 * 0 + 1 * 1) with 1 by ring.
  rewrite sqrt_1. f_equal; field.
Qed.

Lemma flat_metric :
  let F0 := inverse (fromCols (fst flatJacobian) (snd flatJacobian)
                              (normalized e_z)) in
  mul F0 (transpose F0) = identity3.
Proof.
  rewrite normalized_e_z.
  unfold inverse, determinant, fromCols, mul, transpose, identity3,
    flatJacobian, e_z; simpl.
  f_equal; field.
Qed.

(** On the flat frame the tensor is made of the two Lame terms only. *)
Lemma tensorAt_flat (E nu z : R) :
  tensorAt flatJacobian e_z E nu z
  = let lambda := E * nu / ((1 + nu) * (1 - 2 * nu)) in
    let mu := E / (2 * (1 + nu)) in
    let K := 4 * lambda * mu / (lambda + 2 * mu) in
    map (fun c => c * z)
        [K + 4 * mu; K; 0; K; K + 4 * mu; 0; 0; 0; 2 * mu].
Proof.
  unfold tensorAt. rewrite flat_metric. unfold identity3; simpl.
  coefficientwise; ring.
Qed.

Lemma plane_stress_doubled (E nu : R) :
  E <> 0 ->
  0 <= nu < 1 / 2 ->
  let lambda := E * nu / ((1 + nu) * (1 - 2 * nu)) in
  let mu := E / (2 * (1 + nu)) in
  let K := 4 * lambda * mu / (lambda + 2 * mu) in
  map (fun c => c * 1) [K + 4 * mu; K; 0; K; K + 4 * mu; 0; 0; 0; 2 * mu]
  = map (Rmult 2) (analyticPlaneStress E nu).
Proof.
  intros HE Hnu. cbv zeta. unfold analyticPlaneStress. simpl.
  assert (H1 : 1 + nu <> 0) by lra.
  assert (H2 : 1 - 2 * nu <> 0) by lra.
  assert (H3 : 1 - nu * nu <> 0) by nra.
  assert (H4 : E * nu + E * (1 - 2 * nu) <> 0).
  { replace (E * nu + E * (1 - 2 * nu)) with (E * (1 - nu)) by ring.
    apply Rmult_integral_contrapositive_currified; lra. }
  coefficientwise; try ring; field; repeat split; assumption.
Qed.

(** On the flat frame, with [E <> 0] and [0 <= nu < 1/2], no division
    of the loop body is by zero. *)
Lemma flat_nondegenerate (E nu : R) :
  E <> 0 -> 0 <= nu < 1 / 2 -> nondegenerate flatJacobian e_z E nu.
Proof.
  intros HE Hnu. unfold nondegenerate. rewrite normalized_e_z.
  assert (H1 : 1 + nu <> 0) by lra.
  assert (H2 : 1 - 2 * nu <> 0) by lra.
  repeat split.
  - unfold determinant, fromCols, flatJacobian, e_z; simpl. lra.
  - apply Rmult_integral_contrapositive_currified; assumption.
  - lra.
  - replace (E * nu / ((1 + nu) * (1 - 2 * nu)) + 2 * (E / (2 * (1 + nu))))
      with (E * ((1 - nu) / ((1 + nu) * (1 - 2 * nu)))) by (field; split; assumption).
    apply Rmult_integral_contrapositive_currified; [assumption|].
    unfold Rdiv. apply Rmult_integral_contrapositive_currified; [lra|].
    apply Rinv_neq_0_compat.
    apply Rmult_integral_contrapositive_currified; assumption.
Qed.

Lemma doubledPlaneStress_twice (E nu : R) :
  0 <= nu < 1 / 2 ->
  doubledPlaneStress E nu = map (Rmult 2) (analyticPlaneStress E nu).
Proof.
  intros Hnu. unfold doubledPlaneStress, analyticPlaneStress; simpl.
  assert (H1 : 1 + nu <> 0) by lra.
  assert (H3 : 1 - nu * nu <> 0) by nra.
  coefficientwise; try ring; field; assumption.
Qed.

Lemma gsMaterialMatrix_flat_columns
    (g : nat -> gsGeometry) (E nu : R) (dE dN : nat)
    (Emat0 Nmat0 u res0 : gsMatrix) :
  E <> 0 ->
  0 <= nu < 1 / 2 ->
  wf res0 ->
  (forall c, In c (columns u) ->
             geo_jacobian (g 0%nat) (firstn 2 c) = flatJacobian /\
             geo_normal (g 0%nat) (firstn 2 c) = e_z /\
             nth 2 c 0 = 1) ->
  gsMaterialMatrix_eval_into
    (mkMaterialMatrix g (constantFunction [E] dE) (constantFunction [nu] dN)
                      Emat0 Nmat0)
    u res0
  = Ok (mkMat 9 (map (fun _ => doubledPlaneStress E nu) (columns u))).
Proof.
  intros HE Hnu Hwf Hflat. unfold constantFunction.
  rewrite gsMaterialMatrix_pointwise_fields by exact Hwf.
  f_equal. f_equal. apply map_ext_in. intros c Hc.
  destruct (Hflat c Hc) as (Hj & Hn & Hz).
  unfold tensorOfPoint. cbv zeta. rewrite Hj, Hn, Hz. cbn [nth].
  rewrite tensorAt_flat. cbv zeta.
  rewrite (plane_stress_doubled E nu HE Hnu).
  symmetry. now apply doubledPlaneStress_twice.
Qed.

(** C1 (amended).  On a flat, axis-aligned patch (Jacobian the
    identity embedding, normal [e_z]), with uniform [E] and [nu],
    [E <> 0], [0 <= nu < 1/2], and third coordinate [z = 1], every
    column of the result is [C11 = C22 = 2E/(1-nu^2)],
    [C12 = 2 nu E/(1-nu^2)], [C33 = E/(1+nu)], the other coefficients
    zero: twice the analytic plane-stress tensor; and at every such
    point no division of the loop body is by zero.  ([E = 0] is left
    out: there [lambda + 2 * mu = 0] and the source divides by it.) *)
Theorem gsMaterialMatrix_flat_patch
    (g : nat -> gsGeometry) (E nu : R) (dE dN : nat)
    (Emat0 Nmat0 u res0 : gsMatrix) :
  E <> 0 ->
  0 <= nu < 1 / 2 ->
  wf res0 ->
  (forall c, In c (columns u) ->
             geo_jacobian (g 0%nat) (firstn 2 c) = flatJacobian /\
             geo_normal (g 0%nat) (firstn 2 c) = e_z /\
             nth 2 c 0 = 1) ->
  gsMaterialMatrix_eval_into
    (mkMaterialMatrix g (constantFunction [E] dE) (constantFunction [nu] dN)
                      Emat0 Nmat0)
    u res0
  = Ok (mkMat 9 (map (fun _ => doubledPlaneStress E nu) (columns u)))
  /\ doubledPlaneStress E nu = map (Rmult 2) (analyticPlaneStress E nu)
  /\ forall c, In c (columns u) ->
       nondegenerate (geo_jacobian (g 0%nat) (firstn 2 c))
                     (geo_normal (g 0%nat) (firstn 2 c)) E nu.
Proof.
  intros HE Hnu Hwf Hflat. split; [|split].
  - now apply gsMaterialMatrix_flat_columns.
  - now apply doubledPlaneStress_twice.
  - intros c Hc. destruct (Hflat c Hc) as (Hj & Hn & _).
    rewrite Hj, Hn. now apply flat_nondegenerate.
Qed.



(** At [nu = 1/2] the first Lame parameter divides by zero, whatever
    the frame and the modulus. *)
Lemma incompressible_is_degenerate (jac : vec3 * vec3) (n : vec3) (E : R) :
  ~ nondegenerate jac n E (1 / 2).
Proof.
  intros (_ & H & _). apply H. field.
Qed.




(* ================================================================ *)
(** * The laminate material matrix *)

Lemma Reqb_true (a b : R) : Reqb a b = true <-> a = b.
Proof.
  unfold Reqb. destruct (Req_dec_T a b); split; intros; auto; discriminate.
Qed.

Lemma Reqb_false (a b : R) : Reqb a b = false <-> a <> b.
Proof.
  unfold Reqb. destruct (Req_dec_T a b); split; intros; auto;
    try discriminate; contradiction.
Qed.

Lemma body_symmetric (mm : gsMaterialMatrixD) (i : nat) (s : lamState) :
  symmetric mm i ->
  gsMaterialMatrixD_body mm i s = Returned tt (plyStep mm s i).
Proof.
  intros H. apply Reqb_true in H.
  unfold gsMaterialMatrixD_body, bindM, assertM. rewrite H. reflexivity.
Qed.

Lemma body_not_symmetric (mm : gsMaterialMatrixD) (i : nat) (s : lamState) :
  ~ symmetric mm i ->
  gsMaterialMatrixD_body mm i s = Aborted (NoSymmetry i) s.
Proof.
  intros H. apply Reqb_false in H.
  unfold gsMaterialMatrixD_body, bindM, assertM. rewrite H. reflexivity.
Qed.

Lemma forEach_symmetric (mm : gsMaterialMatrixD) (idx : list nat) (s : lamState) :
  (forall i, In i idx -> symmetric mm i) ->
  forEach idx (gsMaterialMatrixD_body mm) s
  = Returned tt (fold_left (plyStep mm) idx s).
Proof.
  revert s; induction idx as [|i idx IH]; intros s H; simpl.
  - reflexivity.
  - unfold bindM. rewrite body_symmetric by (apply H; now left).
    apply IH. intros k Hk. apply H. now right.
Qed.

Lemma forEach_first_violation (mm : gsMaterialMatrixD)
    (pre post : list nat) (k : nat) (s : lamState) :
  (forall i, In i pre -> symmetric mm i) ->
  ~ symmetric mm k ->
  forEach (pre ++ k :: post) (gsMaterialMatrixD_body mm) s
  = Aborted (NoSymmetry k) (fold_left (plyStep mm) pre s).
Proof.
  revert s; induction pre as [|i pre IH]; intros s H Hk; simpl.
  - unfold bindM. now rewrite body_not_symmetric.
  - unfold bindM. rewrite body_symmetric by (apply H; now left).
    apply IH; auto. intros j Hj. apply H. now right.
Qed.

Lemma trace_plyStep (mm : gsMaterialMatrixD) (s : lamState) (i : nat) :
  trace (plyStep mm s i) = trace s ++ stepsOf [i].
Proof. unfold plyStep, stepsOf; simpl. now rewrite <- !app_assoc. Qed.

Lemma trace_plySteps (mm : gsMaterialMatrixD) (idx : list nat) (s : lamState) :
  trace (fold_left (plyStep mm) idx s) = trace s ++ stepsOf idx.
Proof.
  revert s; induction idx as [|i idx IH]; intros s; simpl.
  - now rewrite app_nil_r.
  - rewrite IH, trace_plyStep. unfold stepsOf; simpl.
    now rewrite <- app_assoc.
Qed.

Lemma t_tot_plySteps (mm : gsMaterialMatrixD) (idx : list nat) (s : lamState) :
  t_tot (fold_left (plyStep mm) idx s) = t_tot s.
Proof.
  revert s; induction idx as [|i idx IH]; intros s; simpl; auto.
  now rewrite IH.
Qed.

Lemma firstn_succ {A : Type} (k : nat) (l : list A) (d : A) :
  (k < length l)%nat -> firstn (S k) l = firstn k l ++ [nth k l d].
Proof.
  revert k; induction l as [|h t IH]; intros [|k] Hk; simpl in *;
    try lia; auto.
  f_equal. apply IH. lia.
Qed.

(** [t_temp] accumulates the thicknesses in the order of
    [std::accumulate]. *)
Lemma t_temp_plySteps (mm : gsMaterialMatrixD) (k : nat) (s : lamState) :
  (k <= length (_thickness mm))%nat ->
  t_temp (fold_left (plyStep mm) (seq 0 k) s)
  = fold_left Rplus (firstn k (_thickness mm)) (t_temp s).
Proof.
  induction k as [|k IH]; intros Hk.
  - reflexivity.
  - rewrite seq_S, fold_left_app. simpl fold_left at 1.
    rewrite (firstn_succ k (_thickness mm) 0) by lia.
    rewrite fold_left_app. simpl. rewrite <- IH by lia. reflexivity.
Qed.

Lemma cols_add_reshaped (m : gsMatrix) (a : mat3) :
  cols (add_reshaped m a) = cols m.
Proof. unfold add_reshaped, cols at 1; simpl. apply chunk_length. Qed.

Lemma cols_result_plySteps (mm : gsMaterialMatrixD) (idx : list nat) (s : lamState) :
  cols (result (fold_left (plyStep mm) idx s)) = cols (result s).
Proof.
  revert s; induction idx as [|i idx IH]; intros s; simpl; auto.
  rewrite IH. unfold plyStep; simpl. apply cols_add_reshaped.
Qed.

Lemma eval_into_sizes_ok (mm : gsMaterialMatrixD) (u : gsMatrix) (s0 : lamState) :
  sizes_ok mm = true ->
  gsMaterialMatrixD_eval_into mm u s0
  = match forEach (seq 0 (length (_phi mm))) (gsMaterialMatrixD_body mm)
                  (beforeLoop mm s0) with
    | Returned _ s =>
        if Reqb (t_tot s) (t_temp s) then Returned tt s
        else Aborted TotalThicknessWrong s
    | Aborted e s => Aborted e s
    end.
Proof.
  unfold sizes_ok. rewrite !Bool.andb_true_iff.
  intros [[[[H1 H2] H3] H4] H5].
  unfold gsMaterialMatrixD_eval_into, bindM, assertM, get, modify, ret.
  rewrite H1, H2, H3, H4, H5. unfold beforeLoop.
  destruct (forEach _ _ _) as [[] s|e s]; auto.
  destruct (Reqb (t_tot s) (t_temp s)); reflexivity.
Qed.

Lemma eval_into_sizes_wrong (mm : gsMaterialMatrixD) (u : gsMatrix) (s0 : lamState) :
  sizes_ok mm = false ->
  exists e, gsMaterialMatrixD_eval_into mm u s0 = Aborted e s0.
Proof.
  unfold sizes_ok, gsMaterialMatrixD_eval_into, bindM, assertM.
  destruct (Nat.eqb (length (_YoungsModuli mm)) (length (_PoissonRatios mm)));
    [|eauto].
  destruct (Nat.eqb (length (_YoungsModuli mm)) (length (_ShearModuli mm)));
    [|eauto].
  destruct (Nat.eqb (length (_thickness mm)) (length (_phi mm))); [|eauto].
  destruct (Nat.eqb (length (_YoungsModuli mm)) (length (_thickness mm)));
    [|eauto].
  destruct (Nat.eqb (length (_YoungsModuli mm)) 0); simpl; [eauto|discriminate].
Qed.

(** With valid ply data the call returns, in the state reached by
    running the body for every ply. *)
Lemma eval_into_returns (mm : gsMaterialMatrixD) (u : gsMatrix) (s0 : lamState) :
  sizes_ok mm = true ->
  (forall i, (i < length (_phi mm))%nat -> symmetric mm i) ->
  gsMaterialMatrixD_eval_into mm u s0
  = Returned tt (fold_left (plyStep mm) (seq 0 (length (_phi mm)))
                           (beforeLoop mm s0)).
Proof.
  intros Hs Hsym. rewrite eval_into_sizes_ok by exact Hs.
  rewrite forEach_symmetric
    by (intros i Hi; apply in_seq in Hi; apply Hsym; lia).
  assert (Hlen : length (_phi mm) = length (_thickness mm)).
  { unfold sizes_ok in Hs. rewrite !Bool.andb_true_iff in Hs.
    destruct Hs as [[[[_ _] H3] _] _]. apply Nat.eqb_eq in H3. lia. }
  replace (Reqb _ _) with true; [reflexivity|].
  symmetry. apply Reqb_true.
  rewrite t_tot_plySteps, t_temp_plySteps by lia.
  rewrite Hlen, firstn_all. reflexivity.
Qed.

Lemma seq_split_at (n k : nat) :
  (k < n)%nat -> seq 0 n = seq 0 k ++ k :: seq (S k) (n - S k).
Proof.
  intros Hk. replace n with (k + S (n - S k))%nat at 1 by lia.
  rewrite seq_app. reflexivity.
Qed.

Lemma eval_into_first_violation
    (mm : gsMaterialMatrixD) (u : gsMatrix) (s0 : lamState) (k : nat) :
  (k < length (_phi mm))%nat ->
  ~ symmetric mm k ->
  (forall i, (i < k)%nat -> symmetric mm i) ->
  sizes_ok mm = true ->
  gsMaterialMatrixD_eval_into mm u s0
  = Aborted (NoSymmetry k)
            (fold_left (plyStep mm) (seq 0 k) (beforeLoop mm s0)).
Proof.
  intros Hk Hviol Hbefore Hs.
  rewrite eval_into_sizes_ok by exact Hs.
  rewrite (seq_split_at (length (_phi mm)) k Hk).
  rewrite forEach_first_violation; auto.
  intros i Hi. apply in_seq in Hi. apply Hbefore. lia.
Qed.

(** C8 (amended).  When ply [k] is the first one that violates the
    elastic symmetry, evaluation aborts.  With ply data of valid sizes
    it aborts on the symmetry assertion of ply [k], after the steps
    (Dmat, Tmat, rotation, accumulation) of all plies before [k] have
    been run and before any step of ply [k] or of a later ply; with
    invalid sizes it aborts on a size assertion, nothing being run. *)
Theorem gsMaterialMatrixD_symmetry_violation
    (mm : gsMaterialMatrixD) (u : gsMatrix) (s0 : lamState) (k : nat) :
  (k < length (_phi mm))%nat ->
  ~ symmetric mm k ->
  (forall i, (i < k)%nat -> symmetric mm i) ->
  (sizes_ok mm = true ->
     let s := fold_left (plyStep mm) (seq 0 k) (beforeLoop mm s0) in
     gsMaterialMatrixD_eval_into mm u s0 = Aborted (NoSymmetry k) s
     /\ trace s = trace s0 ++ stepsOf (seq 0 k))
  /\ (sizes_ok mm = false ->
        exists e, gsMaterialMatrixD_eval_into mm u s0 = Aborted e s0).
Proof.
  intros Hk Hviol Hbefore. split.
  - intros Hs s. split.
    + now apply eval_into_first_violation.
    + unfold s. rewrite trace_plySteps. reflexivity.
  - apply eval_into_sizes_wrong.
Qed.

(** With valid ply data the result has one column, whatever the
    number of query points. *)
Lemma gsMaterialMatrixD_one_column (mm : gsMaterialMatrixD) (u : gsMatrix)
    (s0 : lamState) :
  sizes_ok mm = true ->
  (forall i, (i < length (_phi mm))%nat -> symmetric mm i) ->
  exists s, gsMaterialMatrixD_eval_into mm u s0 = Returned tt s
            /\ cols (result s) = 1%nat.
Proof.
  intros Hs Hsym. eexists. split.
  - now apply eval_into_returns.
  - rewrite cols_result_plySteps. unfold beforeLoop; cbn [result set_result].
    apply resize_cols.
Qed.

Lemma plyTmat_0 : plyTmat 0 = identity3.
Proof.
  unfold plyTmat, identity3. rewrite cos_0, sin_0. f_equal; ring.
Qed.

Lemma unrotated (D : mat3) :
  mul (mul (transpose identity3) D) identity3 = D.
Proof.
  destruct D. unfold mul, transpose, identity3; simpl. f_equal; ring.
Qed.

Lemma resize_keeps_column (b : list R) :
  length b = 9%nat -> resize 9 1 (mkMat 9 [b]) = mkMat 9 [b].
Proof.
  intros Hb.
  destruct b as [|a0 [|a1 [|a2 [|a3 [|a4 [|a5 [|a6 [|a7 [|a8 [|a9 l]]]]]]]]]];
    try discriminate Hb.
  reflexivity.
Qed.

Lemma add_reshaped_column (b : list R) (a : mat3) :
  length b = 9%nat ->
  add_reshaped (mkMat 9 [b]) a = mkMat 9 [addColumns b (coeffs3 a)].
Proof.
  intros Hb.
  destruct b as [|a0 [|a1 [|a2 [|a3 [|a4 [|a5 [|a6 [|a7 [|a8 [|a9 l]]]]]]]]]];
    try discriminate Hb.
  reflexivity.
Qed.

(** A laminate of one ply with fibre angle 0: [Tmat] is the identity,
    [Dmat] is not rotated, and [Dmat * t] is ADDED to what the matrix
    passed as [result] holds when it already has 9 coefficients. *)
Lemma gsMaterialMatrixD_single_ply
    (E1 E2 G12 nu12 nu21 t : R) (b : list R) (u : gsMatrix) (s0 : lamState) :
  nu21 * E1 = nu12 * E2 ->
  length b = 9%nat ->
  result s0 = mkMat 9 [b] ->
  exists s,
    gsMaterialMatrixD_eval_into
      (mkMaterialMatrixD [(E1, E2)] [G12] [(nu12, nu21)] [t] [0]) u s0
    = Returned tt s
    /\ Tmat s = identity3
    /\ Dmat s = plyDmat E1 E2 G12 nu12 nu21
    /\ result s
       = mkMat 9 [addColumns b (coeffs3 (scale (plyDmat E1 E2 G12 nu12 nu21) t))].
Proof.
  intros Hsym Hb Hres. eexists. split.
  - apply eval_into_returns; [reflexivity|].
    intros [|i] Hi; [exact Hsym|simpl in Hi; lia].
  - cbn [_phi length seq fold_left].
    unfold plyStep, beforeLoop.
    cbn [_YoungsModuli _ShearModuli _PoissonRatios _thickness _phi nth fst snd
         Tmat Dmat result set_Dmat set_Tmat set_result set_t_temp set_z
         set_t_tot set_z_mid record t_tot z_mid t_temp z trace
         gsMaterialMatrixD_targetDim].
    rewrite Hres, plyTmat_0, unrotated, resize_keeps_column by exact Hb.
    rewrite add_reshaped_column by exact Hb.
    repeat split.
Qed.

(* ================================================================ *)
(** * Further properties: the adapter and the integrators *)

(** The two block assignments, for any input: every column of [tmp]
    is the base point followed by the first coefficient of the column
    of [u]. *)
Lemma stack_point_any (p : list R) (us T : list (list R)) :
  length T = length us ->
  map (fun sd => firstn (length p) (snd sd) ++ firstn 1 (fst sd))
      (combine us
         (map (fun sd => firstn (length p) (fst sd) ++ skipn (length p) (snd sd))
              (combine (repeat p (length us)) T)))
  = map (fun c => p ++ firstn 1 c) us.
Proof.
  revert T; induction us as [|c us IH]; intros [|d T] HT;
    try discriminate; auto.
  cbn [length repeat combine map fst snd]. f_equal.
  - rewrite firstn_app, firstn_firstn, Nat.min_id, length_firstn, Nat.min_id,
      Nat.sub_diag, firstn_all, firstn_O, app_nil_r.
    reflexivity.
  - apply IH. simpl in HT. lia.
Qed.

(** [eval_into] of an adapter whose point is one column [p]: the two
    remaining assertions, then the wrapped field on the stacked points. *)
Lemma gsIntegrantZ_eval_into_stacked
    (f : gsFunction) (tmp : gsMatrix) (p : list R) (u res : gsMatrix) :
  gsIntegrantZ_eval_into (mkIntegrantZ f tmp (mkMat (length p) [p])) u res
  = (check (Nat.eqb (rows u) 1) orelse RowsNotOne ;;
     check (Nat.eqb (domainDim f) (length p + 1)) orelse DomainDimMismatch ;;
     eval_into f (mkMat (length p + 1) (map (fun c => p ++ firstn 1 c) (columns u)))
               res).
Proof.
  unfold gsIntegrantZ_eval_into, GISMO_ASSERT, bind, cols.
  cbn [iz_fun iz_surfPts iz_tmp rows columns length].
  destruct (Nat.eqb (rows u) 1) eqn:Hr; [|reflexivity].
  destruct (Nat.eqb (domainDim f) (length p + 1)); [|reflexivity].
  rewrite Nat.eqb_refl. f_equal.
  unfold assign_bottomRows, assign_topRows, replicate.
  cbn [rows columns map repeat concat].
  rewrite resize_rows, app_nil_r, concat_repeat_singleton.
  replace (length p + 1 - 1)%nat with (length p) by lia.
  f_equal. apply stack_point_any.
  apply (resize_cols (length p + 1) (length (columns u)) tmp).
Qed.

(** X1.  An adapter whose point has not been set never evaluates the
    wrapped field: [eval_into] ends on one of its three assertions,
    whatever the field and the input. *)
Theorem gsIntegrantZ_needs_point (f : gsFunction) (u res : gsMatrix) :
  let r := gsIntegrantZ_eval_into (gsIntegrantZ_make f) u res in
  r = Failed RowsNotOne \/ r = Failed DomainDimMismatch \/ r = Failed MultiplePoints.
Proof.
  unfold gsIntegrantZ_eval_into, gsIntegrantZ_make, GISMO_ASSERT, bind, cols.
  cbn [iz_fun iz_surfPts iz_tmp rows columns length emptyMat].
  destruct (Nat.eqb (rows u) 1); [|now left].
  destruct (Nat.eqb (domainDim f) (0 + 1)); [|now right; left].
  now right; right.
Qed.

(** X2.  The scratch matrix [tmp] of the adapter carries nothing from
    one call to the next: with a well-formed point, two adapters that
    differ only in [tmp] evaluate alike on every input. *)
Theorem gsIntegrantZ_tmp_irrelevant
    (f : gsFunction) (tmp1 tmp2 P u res : gsMatrix) :
  wf P ->
  gsIntegrantZ_eval_into (mkIntegrantZ f tmp1 P) u res
  = gsIntegrantZ_eval_into (mkIntegrantZ f tmp2 P) u res.
Proof.
  intros HP. destruct P as [m [|p [|q cs]]].
  - unfold gsIntegrantZ_eval_into, GISMO_ASSERT, bind, cols.
    cbn [iz_fun iz_surfPts iz_tmp rows columns length].
    destruct (Nat.eqb (rows u) 1); [|reflexivity].
    destruct (Nat.eqb (domainDim f) (m + 1)); reflexivity.
  - assert (Hm : m = length p).
    { unfold wf in HP; simpl in HP. inversion HP; subst; auto. }
    subst m. now rewrite !gsIntegrantZ_eval_into_stacked.
  - unfold gsIntegrantZ_eval_into, GISMO_ASSERT, bind, cols.
    cbn [iz_fun iz_surfPts iz_tmp rows columns length].
    destruct (Nat.eqb (rows u) 1); [|reflexivity].
    destruct (Nat.eqb (domainDim f) (m + 1)); reflexivity.
Qed.

(** A loop whose body leaves the state as it is. *)
Lemma forM_skip {St : Type} (body : nat -> St -> outcome St) (idx : list nat) (s : St) :
  (forall k x, body k x = Ok x) -> forM idx body s = Ok s.
Proof.
  intros Hb. induction idx as [|i idx IH]; simpl; auto. now rewrite Hb.
Qed.

(** X5.  For an input without columns the fixed-bound integrator
    returns a matrix with [targetDim] rows and no column, and the
    wrapped field is not evaluated (a field that fails does not make the
    call fail). *)
Theorem gsIntegrateZ_no_points (I : gsIntegrateZ) (u res0 : gsMatrix) :
  cols u = 0%nat ->
  gsIntegrateZ_eval_into I u res0 = Ok (mkMat (targetDim (z_fun I)) []).
Proof.
  intros Hc. unfold gsIntegrateZ_eval_into. rewrite Hc.
  rewrite forM_skip by (intros; reflexivity).
  f_equal. unfold resize. destruct (Nat.eqb _ _); reflexivity.
Qed.

(** The nodes of the fixed-bound integrator, as the matrix on which the
    wrapped field is evaluated. *)
Lemma integral_field_fails (kv : gsKnotVector) (f : gsFunction) (i : nat) (e : failure) :
  eval_into f (mkMat 1 (map (fun nw => [fst nw]) (quRule kv))) emptyMat = Failed e ->
  integral kv f i = Failed e.
Proof. intros H. unfold integral. now rewrite H. Qed.

(** X6.  When the wrapped field fails on the quadrature nodes, the
    fixed-bound integrator fails with the same failure as soon as there
    is one component and one query point. *)
Theorem gsIntegrateZ_field_failure
    (I : gsIntegrateZ) (u res0 : gsMatrix) (e : failure) :
  eval_into (z_fun I)
            (mkMat 1 (map (fun nw => [fst nw]) (quRule (fixedKV (z_t I)))))
            emptyMat = Failed e ->
  (0 < targetDim (z_fun I))%nat ->
  (0 < cols u)%nat ->
  gsIntegrateZ_eval_into I u res0 = Failed e.
Proof.
  intros Hf HD HN. unfold gsIntegrateZ_eval_into.
  destruct (targetDim (z_fun I)) as [|D]; [lia|].
  destruct (cols u) as [|N]; [lia|].
  cbn [seq forM].
  change (mkKnotVector (- z_t I / 2) (z_t I / 2) 1 (1 + 1)) with (fixedKV (z_t I)).
  rewrite (integral_field_fails _ _ _ e Hf). reflexivity.
Qed.

(** X3.  The variable-bound integrator needs a wrapped field whose
    domain has one dimension more than the query points: otherwise,
    with at least one component and one query point, the call ends on
    the adapter's assertion on the domain dimensions. *)
Theorem gsIntegrate_domain_mismatch
    (I : gsIntegrate) (u res0 thickMat : gsMatrix) :
  eval_into (v_t I) u (v_thickMat I) = Ok thickMat ->
  domainDim (v_fun I) <> (rows u + 1)%nat ->
  (0 < targetDim (v_fun I))%nat ->
  (0 < cols u)%nat ->
  gsIntegrate_eval_into I u res0 = Failed DomainDimMismatch.
Proof.
  intros Ht Hd HD HN. unfold gsIntegrate_eval_into. rewrite Ht. cbn [bind].
  destruct (targetDim (v_fun I)) as [|D]; [lia|].
  destruct (cols u) as [|N]; [lia|].
  cbn [seq forM]. unfold gsIntegrate_body at 1. cbn [fst snd].
  unfold integral, gsIntegrantZ_fun, gsIntegrantZ_make, setPoint, colMat.
  cbn [eval_into iz_fun iz_tmp iz_surfPts].
  unfold gsIntegrantZ_eval_into, GISMO_ASSERT, bind.
  cbn [iz_fun iz_surfPts iz_tmp rows columns].
  apply Nat.eqb_neq in Hd. rewrite Hd. reflexivity.
Qed.

Lemma integral_adapter_constant
    (kv : gsKnotVector) (c : list R) (u : gsMatrix) (j i : nat) :
  integral kv (adapterAt (constantFunction c (rows u + 1)) u j) i
  = Ok (nth i c 0 * sumWeights (quRule kv)).
Proof.
  unfold integral, adapterAt, gsIntegrantZ_fun, gsIntegrantZ_make, setPoint, colMat.
  cbn [eval_into iz_fun iz_tmp iz_surfPts].
  unfold gsIntegrantZ_eval_into, GISMO_ASSERT, bind, cols.
  cbn [iz_fun iz_surfPts iz_tmp rows columns length constantFunction pointwise
       domainDim eval_into].
  rewrite !Nat.eqb_refl.
  f_equal. apply quadSum_constant.
  intros k Hk. unfold assign_bottomRows, assign_topRows.
  cbn [rows columns].
  rewrite (nth_indep _ [] c).
  - match goal with
    | |- nth k (map ?F ?l) c = c => apply (map_nth F l (nth 0 l []))
    end.
  - rewrite !length_map, length_combine, !length_map, length_combine.
    unfold replicate. cbn [columns map repeat concat].
    rewrite app_nil_r, concat_repeat_singleton, repeat_length.
    pose proof (resize_cols (rows u + 1) (length (quRule kv)) emptyMat) as Hc.
    unfold cols in Hc. rewrite Hc. lia.
Qed.

(** X4.  With a quadrature that integrates constants exactly, the
    variable-bound integrator maps the constant field [c] to
    [c * thickness(u_j)] in column [j], the thickness being positive at
    the query points. *)
Theorem gsIntegrate_constant
    (c : list R) (d D : nat) (thickness : list R -> list R)
    (thickMat0 u res0 : gsMatrix) :
  (forall kv, kv_first kv < kv_last kv ->
              sumWeights (quRule kv) = kv_last kv - kv_first kv) ->
  (forall j, (j < cols u)%nat -> 0 < nth 0 (thickness (col u j)) 0) ->
  wf res0 ->
  gsIntegrate_eval_into
    (mkIntegrate (constantFunction c (rows u + 1)) (pointwise d D thickness) thickMat0)
    u res0
  = Ok (tabulate (length c) (cols u)
          (fun i j => nth i c 0 * nth 0 (thickness (col u j)) 0)).
Proof.
  intros Hq Hpos Hwf.
  apply (gsIntegrate_returns
           (mkIntegrate (constantFunction c (rows u + 1)) (pointwise d D thickness)
                        thickMat0)
           u res0 (mkMat D (map thickness (columns u)))
           (fun i j => nth i c 0 * nth 0 (thickness (col u j)) 0) Hwf).
  - reflexivity.
  - cbn [v_fun]. intros i j Hi Hj.
    rewrite integral_adapter_constant.
    assert (Hc : coef (mkMat D (map thickness (columns u))) 0 j
                 = nth 0 (thickness (col u j)) 0).
    { unfold coef, col; simpl.
      now rewrite (nth_map_lt thickness _ j [] []) by exact Hj. }
    rewrite Hc. specialize (Hpos j Hj).
    rewrite Hq; unfold variableKV; simpl; [|lra].
    f_equal. field.
Qed.

(* ================================================================ *)
(** * Further properties: the isotropic material matrix *)

Lemma tensorAt_symmetric (jac : vec3 * vec3) (n : vec3) (E nu z : R) :
  let C := tensorAt jac n E nu z in
  nth 1 C 0 = nth 3 C 0 /\ nth 2 C 0 = nth 6 C 0 /\ nth 5 C 0 = nth 7 C 0.
Proof. unfold tensorAt; simpl. repeat split. Qed.

(** X7.  The result of the isotropic evaluator has 9 rows and one
    column per query point, and every column is a symmetric 3 x 3
    tensor: the coefficients (1,0), (2,0), (2,1) equal the coefficients
    (0,1), (0,2), (1,2). *)
Theorem gsMaterialMatrix_result_symmetric
    (mm : gsMaterialMatrix) (u res0 res : gsMatrix) (j : nat) :
  wf res0 ->
  gsMaterialMatrix_eval_into mm u res0 = Ok res ->
  (j < cols u)%nat ->
  rows res = 9%nat /\ cols res = cols u /\ length (col res j) = 9%nat /\
  coef res 1 j = coef res 3 j /\
  coef res 2 j = coef res 6 j /\
  coef res 5 j = coef res 7 j.
Proof.
  intros Hwf Hrun Hj.
  rewrite gsMaterialMatrix_eval_into_columns in Hrun by exact Hwf.
  cbv zeta in Hrun.
  destruct (eval_into (mm_YoungsModulus mm) _ _) as [Emat|e]; [|discriminate].
  destruct (eval_into (mm_PoissonRatio mm) _ _) as [Nmat|e]; [|discriminate].
  cbn [bind] in Hrun. inversion Hrun; subst res. clear Hrun.
  unfold coef, col. cbn [rows columns].
  rewrite nth_map_seq by exact Hj.
  unfold tensorOfColumn.
  repeat split; try apply tensorAt_symmetric.
  unfold cols at 1. cbn [columns]. now rewrite length_map, length_seq.
Qed.

(** X8.  The matrix passed as [result] is an output only: what it
    holds on entry does not change the outcome. *)
Theorem gsMaterialMatrix_result_is_output
    (mm : gsMaterialMatrix) (u r1 r2 : gsMatrix) :
  wf r1 -> wf r2 ->
  gsMaterialMatrix_eval_into mm u r1 = gsMaterialMatrix_eval_into mm u r2.
Proof.
  intros H1 H2. now rewrite !gsMaterialMatrix_eval_into_columns.
Qed.

Lemma lame_constant_scales (k a b : R) :
  k <> 0 ->
  4 * (k * a) * (k * b) / (k * a + 2 * (k * b))
  = k * (4 * a * b / (a + 2 * b)).
Proof.
  intros Hk.
  replace (k * a + 2 * (k * b)) with (k * (a + 2 * b)) by ring.
  unfold Rdiv. rewrite Rinv_mult.
  generalize (/ (a + 2 * b)). intros w. field. exact Hk.
Qed.

(** The tensor is proportional to the Young's modulus. *)
Lemma tensorAt_scales_with_modulus (jac : vec3 * vec3) (n : vec3) (k E nu z : R) :
  k <> 0 ->
  tensorAt jac n (k * E) nu z = map (Rmult k) (tensorAt jac n E nu z).
Proof.
  intros Hk. unfold tensorAt. cbv zeta.
  set (G := mul _ _).
  replace (k * E * nu / ((1 + nu) * (1 - 2 * nu)))
    with (k * (E * nu / ((1 + nu) * (1 - 2 * nu)))) by (unfold Rdiv; ring).
  replace (k * E / (2 * (1 + nu)))
    with (k * (E / (2 * (1 + nu)))) by (unfold Rdiv; ring).
  rewrite lame_constant_scales by exact Hk.
  set (lambda := E * nu / _). set (mu := E / _).
  set (K := 4 * lambda * mu / _).
  simpl. coefficientwise; ring.
Qed.

Lemma nth_0_scaled (k : R) (l : list R) :
  nth 0 (map (Rmult k) l) 0 = k * nth 0 l 0.
Proof. destruct l; simpl; ring. Qed.

(** X9.  At query points at which no division of the loop body is by
    zero, the tensor is proportional to the Young's modulus:
    multiplying the modulus field by a factor [k <> 0] multiplies
    every coefficient of the result by [k].  ([k = 0] is left out: a
    modulus of zero makes [lambda + 2 * mu] vanish, and the source
    divides by it.) *)
Theorem gsMaterialMatrix_scales_with_modulus
    (g : nat -> gsGeometry) (dE DE dN DN : nat) (fE fNu : list R -> list R)
    (k : R) (Emat0 Nmat0 u r r' : gsMatrix) :
  k <> 0 ->
  wf r -> wf r' ->
  (forall c, In c (columns u) ->
     let xy := firstn 2 c in
     nondegenerate (geo_jacobian (g 0%nat) xy) (geo_normal (g 0%nat) xy)
                   (nth 0 (fE (geo_eval (g 0%nat) xy)) 0)
                   (nth 0 (fNu (geo_eval (g 0%nat) xy)) 0)) ->
  exists res,
    gsMaterialMatrix_eval_into
      (mkMaterialMatrix g (pointwise dE DE fE) (pointwise dN DN fNu) Emat0 Nmat0)
      u r = Ok res
    /\ gsMaterialMatrix_eval_into
         (mkMaterialMatrix g (pointwise dE DE (fun X => map (Rmult k) (fE X)))
                           (pointwise dN DN fNu) Emat0 Nmat0)
         u r'
       = Ok (mkMat 9 (map (map (Rmult k)) (columns res))).
Proof.
  intros Hk Hr Hr' _. eexists. split.
  - apply gsMaterialMatrix_pointwise_fields. exact Hr.
  - rewrite gsMaterialMatrix_pointwise_fields by exact Hr'.
    cbn [columns]. rewrite map_map. f_equal. f_equal.
    apply map_ext. intros c. unfold tensorOfPoint. cbv zeta.
    rewrite nth_0_scaled. now apply tensorAt_scales_with_modulus.
Qed.

(** X10.  [piece(k)] evaluates on the [k]-th piece of the geometry with
    the same material fields, and its own scratch matrices do not
    matter. *)
Theorem gsMaterialMatrix_piece_eval
    (g : nat -> gsGeometry) (dE DE dN DN : nat) (fE fNu : list R -> list R)
    (Emat0 Nmat0 u r : gsMatrix) (k : nat) :
  wf r ->
  gsMaterialMatrix_eval_into
    (piece (mkMaterialMatrix g (pointwise dE DE fE) (pointwise dN DN fNu)
                             Emat0 Nmat0) k)
    u r
  = Ok (mkMat 9 (map (tensorOfPoint (g k) fE fNu) (columns u))).
Proof.
  intros Hr. unfold piece. cbn [mm_mp mm_YoungsModulus mm_PoissonRatio].
  now rewrite gsMaterialMatrix_pointwise_fields.
Qed.

(* ================================================================ *)
(** * Further properties: the laminate material matrix *)

Lemma addColumns_length (b : list R) (a : mat3) :
  length b = 9%nat -> length (addColumns b (coeffs3 a)) = 9%nat.
Proof.
  intros Hb. unfold addColumns. rewrite length_map, length_combine, Hb.
  reflexivity.
Qed.

Lemma result_plyStep (mm : gsMaterialMatrixD) (s : lamState) (i : nat) (b : list R) :
  result s = mkMat 9 [b] -> length b = 9%nat ->
  result (plyStep mm s i)
  = mkMat 9 [addColumns b (coeffs3 (plyContribution mm i))].
Proof.
  intros Hres Hb. unfold plyStep, plyContribution.
  cbn [Tmat Dmat result set_Dmat set_Tmat set_result set_t_temp set_z record].
  rewrite Hres. now apply add_reshaped_column.
Qed.

Lemma result_plySteps (mm : gsMaterialMatrixD) (idx : list nat) :
  forall (s : lamState) (b : list R),
    result s = mkMat 9 [b] -> length b = 9%nat ->
    result (fold_left (plyStep mm) idx s)
    = mkMat 9 [fold_left (fun acc i => addColumns acc (coeffs3 (plyContribution mm i)))
                         idx b].
Proof.
  induction idx as [|i idx IH]; intros s b Hres Hb; simpl; auto.
  apply IH.
  - now apply result_plyStep.
  - now apply addColumns_length.
Qed.

Lemma sizes_ok_lengths (mm : gsMaterialMatrixD) :
  sizes_ok mm = true -> length (_phi mm) = length (_thickness mm).
Proof.
  unfold sizes_ok. rewrite !Bool.andb_true_iff.
  intros [[[[_ _] H3] _] _]. apply Nat.eqb_eq in H3. lia.
Qed.

Lemma gsMaterialMatrixD_returns_sum
    (mm : gsMaterialMatrixD) (u : gsMatrix) (s0 : lamState) (b : list R) :
  sizes_ok mm = true ->
  (forall i, (i < length (_phi mm))%nat -> symmetric mm i) ->
  result s0 = mkMat 9 [b] ->
  length b = 9%nat ->
  exists s,
    gsMaterialMatrixD_eval_into mm u s0 = Returned tt s
    /\ result s = mkMat 9 [laminateSum mm b]
    /\ t_tot s = fold_left Rplus (_thickness mm) 0
    /\ t_temp s = t_tot s.
Proof.
  intros Hs Hsym Hres Hb. eexists. split; [now apply eval_into_returns|].
  split; [|split].
  - unfold laminateSum. apply result_plySteps; [|exact Hb].
    unfold beforeLoop. cbn [result set_result set_t_temp set_z_mid set_t_tot
                            gsMaterialMatrixD_targetDim].
    rewrite Hres. now apply resize_keeps_column.
  - rewrite t_tot_plySteps. reflexivity.
  - rewrite t_tot_plySteps, t_temp_plySteps
      by (rewrite (sizes_ok_lengths mm Hs); lia).
    rewrite (sizes_ok_lengths mm Hs), firstn_all. reflexivity.
Qed.

(** X11.  With valid ply data and a result matrix of 9 coefficients,
    the call returns and [result] holds what it held on entry plus, for
    every ply in order, the rotated stiffness [Tmat^T * Dmat * Tmat]
    times the ply thickness (the membrane matrix A); [t_temp] ends equal
    to [t_tot], the sum of the thicknesses. *)
Theorem gsMaterialMatrixD_membrane_sum
    (mm : gsMaterialMatrixD) (u : gsMatrix) (s0 : lamState) (b : list R) :
  sizes_ok mm = true ->
  (forall i, (i < length (_phi mm))%nat -> symmetric mm i) ->
  result s0 = mkMat 9 [b] ->
  length b = 9%nat ->
  exists s,
    gsMaterialMatrixD_eval_into mm u s0 = Returned tt s
    /\ result s = mkMat 9 [laminateSum mm b]
    /\ t_tot s = fold_left Rplus (_thickness mm) 0
    /\ t_temp s = t_tot s.
Proof. exact (gsMaterialMatrixD_returns_sum mm u s0 b). Qed.

Lemma eval_into_size_failure (mm : gsMaterialMatrixD) (u : gsMatrix) (s0 : lamState) :
  sizes_ok mm = false ->
  gsMaterialMatrixD_eval_into mm u s0 = Aborted (firstSizeFailure mm) s0.
Proof.
  unfold sizes_ok, firstSizeFailure, gsMaterialMatrixD_eval_into, bindM, assertM.
  destruct (Nat.eqb (length (_YoungsModuli mm)) (length (_PoissonRatios mm)));
    [|reflexivity].
  destruct (Nat.eqb (length (_YoungsModuli mm)) (length (_ShearModuli mm)));
    [|reflexivity].
  destruct (Nat.eqb (length (_thickness mm)) (length (_phi mm))); [|reflexivity].
  destruct (Nat.eqb (length (_YoungsModuli mm)) (length (_thickness mm)));
    [|reflexivity].
  destruct (Nat.eqb (length (_YoungsModuli mm)) 0); simpl;
    [reflexivity|discriminate].
Qed.

(** X12.  A laminate without plies is refused: the call ends on the
    assertion "No laminates defined" and leaves the members and
    [result] as they were. *)
Theorem gsMaterialMatrixD_no_plies
    (mm : gsMaterialMatrixD) (u : gsMatrix) (s0 : lamState) :
  _YoungsModuli mm = [] -> _ShearModuli mm = [] -> _PoissonRatios mm = [] ->
  _thickness mm = [] -> _phi mm = [] ->
  gsMaterialMatrixD_eval_into mm u s0 = Aborted NoLaminates s0.
Proof.
  intros H1 H2 H3 H4 H5.
  rewrite eval_into_size_failure;
    unfold sizes_ok, firstSizeFailure; rewrite H1, H2, H3, H4, H5; reflexivity.
Qed.

(** Either every ply below [n] is symmetric or there is a first one
    that is not. *)
Lemma first_violation (mm : gsMaterialMatrixD) (n : nat) :
  (forall i, (i < n)%nat -> symmetric mm i)
  \/ exists k, (k < n)%nat /\ ~ symmetric mm k
               /\ forall i, (i < k)%nat -> symmetric mm i.
Proof.
  induction n as [|n [IH|(k & Hk & Hv & Hb)]].
  - left. intros i Hi. lia.
  - destruct (Req_dec_T
                (snd (nth n (_PoissonRatios mm) (0, 0))
                 * fst (nth n (_YoungsModuli mm) (0, 0)))
                (fst (nth n (_PoissonRatios mm) (0, 0))
                 * snd (nth n (_YoungsModuli mm) (0, 0)))) as [Hs|Hs].
    + left. intros i Hi. destruct (Nat.eq_dec i n) as [->|Hne].
      * exact Hs.
      * apply IH. lia.
    + right. exists n. repeat split; auto.
  - right. exists k. repeat split; auto.
Qed.

(** A call returns, or ends on the symmetry assertion of a ply, or on
    a size assertion. *)
Lemma eval_into_outcomes
    (mm : gsMaterialMatrixD) (u : gsMatrix) (s0 : lamState) :
  (exists s, gsMaterialMatrixD_eval_into mm u s0 = Returned tt s)
  \/ (exists k s, (k < length (_phi mm))%nat
                  /\ gsMaterialMatrixD_eval_into mm u s0 = Aborted (NoSymmetry k) s)
  \/ (gsMaterialMatrixD_eval_into mm u s0 = Aborted (firstSizeFailure mm) s0
      /\ firstSizeFailure mm <> TotalThicknessWrong).
Proof.
  destruct (sizes_ok mm) eqn:Hs.
  - destruct (first_violation mm (length (_phi mm))) as [Hall|(k & Hk & Hv & Hb)].
    + left. eexists. now apply eval_into_returns.
    + right; left. exists k. eexists. split; [exact Hk|].
      now apply eval_into_first_violation.
  - right; right. split; [now apply eval_into_size_failure|].
    unfold firstSizeFailure.
    repeat match goal with
           | |- context [if ?c then _ else _] => destruct c
           end; discriminate.
Qed.

(** X13.  The assertion [t_tot == t_temp] that closes [eval_into]
    never fails (in exact arithmetic), whatever the ply data: the loop
    adds the thicknesses in the order of [std::accumulate]. *)
Theorem gsMaterialMatrixD_total_thickness_holds
    (mm : gsMaterialMatrixD) (u : gsMatrix) (s0 s : lamState) :
  gsMaterialMatrixD_eval_into mm u s0 <> Aborted TotalThicknessWrong s.
Proof.
  destruct (eval_into_outcomes mm u s0)
    as [[s' H]|[(k & s' & _ & H)|[H Hne]]]; rewrite H.
  - discriminate.
  - discriminate.
  - intros E. inversion E. congruence.
Qed.

Lemma plyTmat_half_turn (phi : R) : plyTmat (phi + PI) = plyTmat phi.
Proof.
  unfold plyTmat. rewrite neg_cos, neg_sin. f_equal; ring.
Qed.

Lemma forEach_ext (idx : list nat) (b1 b2 : nat -> M unit) (s : lamState) :
  (forall i x, In i idx -> b1 i x = b2 i x) ->
  forEach idx b1 s = forEach idx b2 s.
Proof.
  revert s; induction idx as [|i idx IH]; intros s H; simpl; auto.
  unfold bindM. rewrite (H i s) by (now left).
  destruct (b2 i s) as [[] s'|e s']; auto.
  apply IH. intros k x Hk. apply H. now right.
Qed.

Lemma body_halfTurned (mm : gsMaterialMatrixD) (i : nat) (s : lamState) :
  (i < length (_phi mm))%nat ->
  gsMaterialMatrixD_body (halfTurned mm) i s = gsMaterialMatrixD_body mm i s.
Proof.
  intros Hi. unfold gsMaterialMatrixD_body, halfTurned.
  cbn [_YoungsModuli _ShearModuli _PoissonRatios _thickness _phi].
  rewrite (nth_map_lt (fun a => a + PI) (_phi mm) i 0 0) by exact Hi.
  rewrite plyTmat_half_turn. reflexivity.
Qed.

(** The two calls agree on everything [lamState] holds (which does
    not include the member [phi]: that one holds the turned angle of
    the last ply reached in one call and the unturned one in the
    other). *)
Lemma eval_into_halfTurned
    (mm : gsMaterialMatrixD) (u : gsMatrix) (s0 : lamState) :
  gsMaterialMatrixD_eval_into (halfTurned mm) u s0
  = gsMaterialMatrixD_eval_into mm u s0.
Proof.
  assert (Hsz : sizes_ok (halfTurned mm) = sizes_ok mm).
  { unfold sizes_ok, halfTurned.
    cbn [_YoungsModuli _ShearModuli _PoissonRatios _thickness _phi].
    now rewrite length_map. }
  destruct (sizes_ok mm) eqn:Hs.
  - rewrite !eval_into_sizes_ok by congruence.
    replace (length (_phi (halfTurned mm))) with (length (_phi mm))
      by (unfold halfTurned; cbn [_phi]; now rewrite length_map).
    rewrite (forEach_ext _ (gsMaterialMatrixD_body (halfTurned mm))
                         (gsMaterialMatrixD_body mm)).
    + reflexivity.
    + intros i x Hi. apply in_seq in Hi. apply body_halfTurned. lia.
  - rewrite !eval_into_size_failure by congruence.
    unfold firstSizeFailure, halfTurned.
    cbn [_YoungsModuli _ShearModuli _PoissonRatios _thickness _phi].
    now rewrite length_map.
Qed.

(** X14.  Turning every fibre angle by a half turn ([phi + pi]) does
    not change what is computed: [Tmat] depends on the angle through
    [cos^2], [sin^2] and [sin * cos] only, so the two calls end in the
    same way (both return, or both fail the same assertion) and leave
    the same matrix in [result], and the same [Dmat] and [Tmat].  (The
    member [phi] itself differs between the two calls.) *)
Theorem gsMaterialMatrixD_half_turn
    (mm : gsMaterialMatrixD) (u : gsMatrix) (s0 : lamState) :
  match gsMaterialMatrixD_eval_into (halfTurned mm) u s0,
        gsMaterialMatrixD_eval_into mm u s0 with
  | Returned _ s', Returned _ s =>
      result s' = result s /\ Dmat s' = Dmat s /\ Tmat s' = Tmat s
  | Aborted e' s', Aborted e s =>
      e' = e /\ result s' = result s /\ Dmat s' = Dmat s /\ Tmat s' = Tmat s
  | _, _ => False
  end.
Proof.
  rewrite eval_into_halfTurned.
  destruct (gsMaterialMatrixD_eval_into mm u s0) as [[] s|e s]; auto.
Qed.

Lemma rotation_keeps_symmetry (T D : mat3) (t : R) :
  m01 D = m10 D -> m02 D = m20 D -> m12 D = m21 D ->
  symmetricColumn (coeffs3 (scale (mul (mul (transpose T) D) T) t)).
Proof.
  destruct T, D. unfold symmetricColumn, coeffs3, scale, mul, transpose.
  cbn. intros H1 H2 H3. subst. repeat split; ring.
Qed.

Lemma plyContribution_symmetric (mm : gsMaterialMatrixD) (i : nat) :
  symmetric mm i -> symmetricColumn (coeffs3 (plyContribution mm i)).
Proof.
  intros Hs. unfold plyContribution. cbv zeta.
  apply rotation_keeps_symmetry; unfold plyDmat; cbn [m01 m10 m02 m20 m12 m21];
    auto.
  unfold symmetric in Hs. unfold Rdiv. now rewrite Hs.
Qed.

Lemma addColumns_symmetric (b c : list R) :
  length b = 9%nat -> length c = 9%nat ->
  symmetricColumn b -> symmetricColumn c -> symmetricColumn (addColumns b c).
Proof.
  intros Hb Hc.
  destruct b as [|b0 [|b1 [|b2 [|b3 [|b4 [|b5 [|b6 [|b7 [|b8 [|b9 b]]]]]]]]]];
    try discriminate Hb.
  destruct c as [|c0 [|c1 [|c2 [|c3 [|c4 [|c5 [|c6 [|c7 [|c8 [|c9 c]]]]]]]]]];
    try discriminate Hc.
  unfold symmetricColumn, addColumns; cbn.
  intros (B1 & B2 & B3) (C1 & C2 & C3). subst. repeat split.
Qed.

Lemma laminateSum_symmetric (mm : gsMaterialMatrixD) (idx : list nat) :
  (forall i, In i idx -> symmetric mm i) ->
  forall b, length b = 9%nat -> symmetricColumn b ->
    symmetricColumn
      (fold_left (fun acc i => addColumns acc (coeffs3 (plyContribution mm i)))
                 idx b).
Proof.
  induction idx as [|i idx IH]; intros Hs b Hb Hsym; simpl; auto.
  apply IH.
  - intros k Hk. apply Hs. now right.
  - now apply addColumns_length.
  - apply addColumns_symmetric; auto.
    apply plyContribution_symmetric. apply Hs. now left.
Qed.

(** X15.  With valid ply data the membrane matrix is symmetric: when
    the 9 coefficients passed in [result] are a symmetric 3 x 3 matrix
    (zeros, for one), so are the 9 coefficients returned. *)
Theorem gsMaterialMatrixD_result_symmetric
    (mm : gsMaterialMatrixD) (u : gsMatrix) (s0 : lamState) (b : list R) :
  sizes_ok mm = true ->
  (forall i, (i < length (_phi mm))%nat -> symmetric mm i) ->
  result s0 = mkMat 9 [b] ->
  length b = 9%nat ->
  symmetricColumn b ->
  exists s,
    gsMaterialMatrixD_eval_into mm u s0 = Returned tt s
    /\ symmetricColumn (col (result s) 0).
Proof.
  intros Hs Hsym Hres Hb Hsb.
  destruct (gsMaterialMatrixD_returns_sum mm u s0 b Hs Hsym Hres Hb)
    as (s & Hrun & Hr & _).
  exists s. split; [exact Hrun|].
  rewrite Hr. unfold col; cbn [columns nth]. unfold laminateSum.
  apply laminateSum_symmetric; auto.
  intros i Hi. apply in_seq in Hi. apply Hsym. lia.
Qed.



(* ================================================================ *)
(** * Further properties: integrating a field given point by point *)

Lemma quadSum_values (D i : nat) (H : R * R -> list R) (q : list (R * R)) :
  forall pre : list (list R),
    quadSum i (length pre) (map snd q) (mkMat D (pre ++ map H q))
    = fold_right (fun nw acc => snd nw * nth i (H nw) 0 + acc) 0 q.
Proof.
  induction q as [|nw q IH]; intros pre; simpl; auto.
  unfold coef, col; cbn [columns].
  rewrite nth_middle. f_equal.
  specialize (IH (pre ++ [H nw])).
  rewrite length_app, <- app_assoc in IH. simpl in IH.
  rewrite Nat.add_1_r in IH. exact IH.
Qed.

(** The integral of coordinate [i] of the adapter over a field given
    point by point: the quadrature sum of [z |-> f(p, z)_i]. *)
Lemma integral_adapter_pointwise
    (kv : gsKnotVector) (D : nat) (g : list R -> list R) (tmp : gsMatrix)
    (p : list R) (i : nat) :
  integral kv
    (gsIntegrantZ_fun
       (mkIntegrantZ (pointwise (length p + 1) D g) tmp (mkMat (length p) [p]))) i
  = Ok (quadratureOf kv (fun z => nth i (g (p ++ [z])) 0)).
Proof.
  unfold integral, gsIntegrantZ_fun. cbn [eval_into].
  rewrite gsIntegrantZ_eval_into_stacked.
  unfold GISMO_ASSERT, bind, pointwise. cbn [rows columns domainDim eval_into].
  rewrite !Nat.eqb_refl, !map_map. cbn [firstn fst]. f_equal.
  apply (quadSum_values D i (fun nw => g (p ++ [fst nw])) (quRule kv) []).
Qed.

(** On a base point of the length the wrapped field expects, the
    adapter of the code integrates as the z-extended field of the
    specification does. *)
Lemma integral_adapter_zExtended
    (kv : gsKnotVector) (f : gsFunction) (tmp : gsMatrix) (p : list R) (i : nat) :
  domainDim f = (length p + 1)%nat ->
  integral kv (gsIntegrantZ_fun (mkIntegrantZ f tmp (mkMat (length p) [p]))) i
  = integral kv (zExtended f p) i.
Proof.
  intros Hd. unfold integral, gsIntegrantZ_fun, zExtended. cbn [eval_into].
  rewrite gsIntegrantZ_eval_into_stacked.
  unfold GISMO_ASSERT, bind, concatPoint. cbn [rows columns].
  rewrite Hd, !Nat.eqb_refl, !map_map. cbn [firstn]. reflexivity.
Qed.

(** C4.  For a query point with in-plane coordinates [u_j], column [j]
    of [u], the variable-bound integrator takes [tHalf] as half the
    value of the thickness field at [u_j], and stores in coefficient
    [(i,j)] the integral, over the grid spanning [-tHalf, tHalf] with
    2 interior knots and order 2, of coordinate [i] of the z-extended
    field [z |-> f(u_j, z)] over the wrapped field [f] with base point
    [u_j]. *)
Theorem gsIntegrate_eval_into_integrals
    (f : gsFunction) (d D : nat) (thickness : list R -> list R)
    (thickMat0 u res0 : gsMatrix) (V : nat -> nat -> R) :
  wf u -> wf res0 ->
  domainDim f = (rows u + 1)%nat ->
  (forall i j, (i < targetDim f)%nat -> (j < cols u)%nat ->
     let tHalf := nth 0 (thickness (col u j)) 0 / 2 in
     integral (mkKnotVector (- tHalf) tHalf 2 2) (zExtended f (col u j)) i
     = Ok (V i j)) ->
  gsIntegrate_eval_into (mkIntegrate f (pointwise d D thickness) thickMat0) u res0
    = Ok (tabulate (targetDim f) (cols u) V).
Proof.
  intros Hu Hwf Hd HV.
  apply (gsIntegrate_returns (mkIntegrate f (pointwise d D thickness) thickMat0)
           u res0 (mkMat D (map thickness (columns u))) V Hwf).
  - reflexivity.
  - cbn [v_fun]. intros i j Hi Hj.
    specialize (HV i j Hi Hj). cbv zeta in HV.
    assert (Hc : coef (mkMat D (map thickness (columns u))) 0 j
                 = nth 0 (thickness (col u j)) 0).
    { unfold coef, col; simpl.
      now rewrite (nth_map_lt thickness _ j [] []) by exact Hj. }
    rewrite Hc.
    unfold variableKV, adapterAt, setPoint, gsIntegrantZ_make, colMat.
    cbn [iz_fun iz_tmp].
    rewrite <- (col_length u j Hu Hj).
    rewrite integral_adapter_zExtended
      by (rewrite (col_length u j Hu Hj); exact Hd).
    exact HV.
Qed.

(** X17.  The fixed-bound integrator over an adapter (the second
    integrator of the driver): for a field given point by point and a
    base point [p], every column of the result holds, for each
    component, the quadrature sum over [-t/2, t/2] of [z |-> f(p, z)]. *)
Theorem gsIntegrateZ_over_adapter
    (D : nat) (g : list R -> list R) (tmp : gsMatrix) (p : list R)
    (t : R) (u res0 : gsMatrix) :
  wf res0 ->
  gsIntegrateZ_eval_into
    (mkIntegrateZ
       (gsIntegrantZ_fun
          (mkIntegrantZ (pointwise (length p + 1) D g) tmp (mkMat (length p) [p])))
       t)
    u res0
  = Ok (tabulate D (cols u)
          (fun i _ => quadratureOf (fixedKV t) (fun z => nth i (g (p ++ [z])) 0))).
Proof.
  intros Hwf.
  rewrite (gsIntegrateZ_returns _ u res0
             (fun i => quadratureOf (fixedKV t) (fun z => nth i (g (p ++ [z])) 0))
             Hwf).
  - reflexivity.
  - intros i _. cbn [z_fun z_t]. apply integral_adapter_pointwise.
Qed.

(** X18.  The variable-bound integrator over a field given point by
    point: coefficient [(i,j)] is the quadrature sum, over
    [-thickness(u_j)/2, thickness(u_j)/2], of [z |-> f(u_j, z)_i]. *)
Theorem gsIntegrate_pointwise
    (d D D' : nat) (g thickness : list R -> list R) (thickMat0 u res0 : gsMatrix) :
  wf u -> wf res0 ->
  gsIntegrate_eval_into
    (mkIntegrate (pointwise (rows u + 1) D g) (pointwise d D' thickness) thickMat0)
    u res0
  = Ok (tabulate D (cols u)
          (fun i j => quadratureOf (variableKV (nth 0 (thickness (col u j)) 0 / 2))
                                   (fun z => nth i (g (col u j ++ [z])) 0))).
Proof.
  intros Hu Hwf.
  apply (gsIntegrate_returns
           (mkIntegrate (pointwise (rows u + 1) D g) (pointwise d D' thickness)
                        thickMat0)
           u res0 (mkMat D' (map thickness (columns u)))
           (fun i j => quadratureOf (variableKV (nth 0 (thickness (col u j)) 0 / 2))
                                    (fun z => nth i (g (col u j ++ [z])) 0)) Hwf).
  - reflexivity.
  - cbn [v_fun]. intros i j _ Hj.
    assert (Hc : coef (mkMat D' (map thickness (columns u))) 0 j
                 = nth 0 (thickness (col u j)) 0).
    { unfold coef, col; simpl.
      now rewrite (nth_map_lt thickness _ j [] []) by exact Hj. }
    rewrite Hc.
    unfold adapterAt, setPoint, gsIntegrantZ_make, colMat.
    cbn [iz_fun iz_tmp].
    rewrite <- (col_length u j Hu Hj).
    apply integral_adapter_pointwise.
Qed.

(** X19.  When the matrix passed as [result] does not hold 9
    coefficients, the laminate evaluator adds the ply contributions to
    the coefficients of the storage [resize] has just allocated, which
    nothing has initialised. *)
Theorem gsMaterialMatrixD_reads_fresh_storage
    (mm : gsMaterialMatrixD) (u : gsMatrix) (s0 : lamState) :
  sizes_ok mm = true ->
  (forall i, (i < length (_phi mm))%nat -> symmetric mm i) ->
  (rows (result s0) * cols (result s0))%nat <> 9%nat ->
  exists s,
    gsMaterialMatrixD_eval_into mm u s0 = Returned tt s
    /\ result s = mkMat 9 [laminateSum mm (map uninit (seq 0 9))].
Proof.
  intros Hs Hsym Hsize. eexists. split; [now apply eval_into_returns|].
  unfold laminateSum. apply result_plySteps; [|reflexivity].
  unfold beforeLoop, resize, gsMaterialMatrixD_targetDim.
  cbn [result set_result set_t_temp set_z_mid set_t_tot].
  replace (Nat.eqb (9 * 1) (rows (result s0) * cols (result s0))) with false
    by (symmetry; apply Nat.eqb_neq; lia).
  reflexivity.
Qed.

End Model.

Arguments Returned {A} a s.
Arguments Aborted {A} e s.

(* ================================================================== *)
(** * The theorems at concrete inputs *)

Lemma wf_emptyMat : wf emptyMat.
Proof. constructor. Qed.

Lemma gsIntegrantZ_eval_into_concat_witness :
  let u := mkMat 1 [[5]; [6]] in
  let adapter := setPoint (mkMat 2 [[1; 2]]) (gsIntegrantZ_make xPlusZ) in
  wf u /\
  gsIntegrantZ_eval_into staleStorage adapter u emptyMat
  = eval_into xPlusZ (concatPoint [1; 2] u) emptyMat.
Proof.
  intros u adapter. split.
  - repeat constructor.
  - apply (gsIntegrantZ_eval_into_concat staleStorage (gsIntegrantZ_make xPlusZ)
             [1; 2] u emptyMat); [reflexivity | reflexivity | repeat constructor].
Defined.

Lemma gsIntegrateZ_ignores_points_witness :
  let I := mkIntegrateZ xPlusZ 1 in
  cols (mkMat 1 [[1 / 4]]) = cols (mkMat 1 [[3 / 4]]) /\
  gsIntegrateZ_eval_into staleStorage midpointRule I (mkMat 1 [[1 / 4]]) emptyMat
  = gsIntegrateZ_eval_into staleStorage midpointRule I (mkMat 1 [[3 / 4]]) emptyMat.
Proof.
  intros I. split; [reflexivity|].
  apply (gsIntegrateZ_ignores_points staleStorage midpointRule I
           (mkMat 1 [[1 / 4]]) (mkMat 1 [[3 / 4]]) emptyMat emptyMat
           wf_emptyMat wf_emptyMat eq_refl).
Defined.

Lemma midpointRule_constants (kv : gsKnotVector) :
  kv_first kv < kv_last kv ->
  sumWeights (midpointRule kv) = kv_last kv - kv_first kv.
Proof. intros _. unfold sumWeights, midpointRule; simpl. ring. Qed.

Lemma gsIntegrateZ_constant_witness :
  0 < 2 /\
  gsIntegrateZ_eval_into staleStorage midpointRule
    (mkIntegrateZ (constantFunction [1; 3] 1) 2) (mkMat 1 [[0]; [1]]) emptyMat
  = Ok (mkMat 2 [[1 * 2; 3 * 2]; [1 * 2; 3 * 2]]).
Proof.
  split; [lra|].
  apply (gsIntegrateZ_constant staleStorage midpointRule [1; 3] 1 2
           (mkMat 1 [[0]; [1]]) emptyMat midpointRule_constants);
    [lra | exact wf_emptyMat].
Defined.


Lemma integrals_of_bendingField (i j : nat) :
  (i < 2)%nat -> (j < 2)%nat ->
  let u := mkMat 2 [[3; 0]; [1; 2]] in
  let tHalf := nth 0 (thicknessX (col u j)) 0 / 2 in
  integral trapezoidRule (mkKnotVector (- tHalf) tHalf 2 2)
           (zExtended bendingField (col u j)) i
  = Ok (nth i (nth j [[28; 12]; [4; 10]] []) 0).
Proof.
  intros Hi Hj.
  destruct i as [|[|i]]; [| |lia]; destruct j as [|[|j]]; try lia;
    unfold integral, trapezoidRule, zExtended, bendingField, thicknessX;
    simpl; f_equal; unfold coef, col; simpl; lra.
Qed.

Lemma gsIntegrate_eval_into_integrals_witness :
  gsIntegrate_eval_into staleStorage trapezoidRule
    (mkIntegrate bendingField (pointwise 2 1 thicknessX) emptyMat)
    (mkMat 2 [[3; 0]; [1; 2]]) emptyMat
  = Ok (mkMat 2 [[28; 12]; [4; 10]]).
Proof.
  apply (gsIntegrate_eval_into_integrals staleStorage trapezoidRule bendingField
           2 1 thicknessX emptyMat (mkMat 2 [[3; 0]; [1; 2]]) emptyMat
           (fun i j => nth i (nth j [[28; 12]; [4; 10]] []) 0)).
  - repeat constructor.
  - exact wf_emptyMat.
  - reflexivity.
  - intros i j Hi Hj. apply integrals_of_bendingField.
    + exact Hi.
    + exact Hj.
Defined.

Lemma gsMaterialMatrix_material_values_witness :
  gsMaterialMatrix_eval_into staleStorage shiftedMaterial
    (mkMat 3 [[0; 0; 1]]) emptyMat
  = Ok (mkMat 9 [tensorAt flatJacobian e_z (0 + 1) 0 1]).
Proof.
  exact (gsMaterialMatrix_material_values staleStorage (fun _ => shiftedSquare)
           3 1 3 1 modulusX ratioZero emptyMat emptyMat
           (mkMat 3 [[0; 0; 1]]) emptyMat wf_emptyMat).
Defined.

Lemma tensorAt_flat_unit_modulus :
  tensorAt flatJacobian e_z (0 + 1) 0 1 = [2; 0; 0; 0; 2; 0; 0; 0; 1].
Proof.
  rewrite tensorAt_flat. cbv zeta. simpl map.
  coefficientwise; field.
Qed.

Lemma tensorAt_flat_zero_modulus (nu z : R) :
  tensorAt flatJacobian e_z 0 nu z = repeat 0 9.
Proof.
  rewrite tensorAt_flat. cbv zeta. simpl.
  unfold Rdiv. rewrite !Rmult_0_l, !Rmult_0_r, !Rmult_0_l, !Rplus_0_l, !Rmult_0_l.
  reflexivity.
Qed.

(** C5, as stated, fails: on the moved square the query point
    [(0, 0, 1)] gets the tensor of the modulus at the physical point
    [(1, 0, 0)], which is 1, not of the modulus at the parametric point
    [(0, 0)], which is 0. *)
Lemma gsMaterialMatrix_material_values_counterexample :
  gsMaterialMatrix_eval_into staleStorage shiftedMaterial
    (mkMat 3 [[0; 0; 1]]) emptyMat
  <> Ok (mkMat 9
           (map (fun c =>
                   let xy := firstn 2 c in
                   let E := nth 0 (modulusX xy) 0 in
                   let nu := nth 0 (ratioZero xy) 0 in
                   tensorAt (geo_jacobian shiftedSquare xy)
                            (geo_normal shiftedSquare xy) E nu (nth 2 c 0))
                (columns (mkMat 3 [[0; 0; 1]])))).
Proof.
  unfold shiftedMaterial.
  rewrite gsMaterialMatrix_pointwise_fields by exact wf_emptyMat.
  cbn [columns map]. unfold tensorOfPoint. cbv zeta.
  cbn [firstn nth modulusX ratioZero shiftedSquare geo_eval geo_jacobian
       geo_normal].
  rewrite tensorAt_flat_unit_modulus, tensorAt_flat_zero_modulus.
  intros H. inversion H as [H0]. lra.
Qed.

Lemma flatSquare_is_flat (c : list R) :
  In c (columns (mkMat 3 [[0; 0; 1]])) ->
  geo_jacobian flatSquare (firstn 2 c) = flatJacobian /\
  geo_normal flatSquare (firstn 2 c) = e_z /\
  nth 2 c 0 = 1.
Proof.
  intros [<-|[]]. repeat split.
Qed.

Lemma flatSquare_is_flat_at_two_points (c : list R) :
  In c (columns (mkMat 3 [[0; 0; 1]; [2; 5; 1]])) ->
  geo_jacobian flatSquare (firstn 2 c) = flatJacobian /\
  geo_normal flatSquare (firstn 2 c) = e_z /\
  nth 2 c 0 = 1.
Proof.
  intros [<-|[<-|[]]]; repeat split.
Qed.

Lemma gsMaterialMatrix_flat_patch_witness :
  3 <> 0 /\ 0 <= 1 / 4 < 1 / 2 /\
  gsMaterialMatrix_eval_into staleStorage
    (mkMaterialMatrix (fun _ => flatSquare) (constantFunction [3] 3)
                      (constantFunction [1 / 4] 3) emptyMat emptyMat)
    (mkMat 3 [[0; 0; 1]; [2; 5; 1]]) emptyMat
  = Ok (mkMat 9 [doubledPlaneStress 3 (1 / 4); doubledPlaneStress 3 (1 / 4)]).
Proof.
  split; [lra|]. split; [lra|].
  apply (gsMaterialMatrix_flat_patch staleStorage (fun _ => flatSquare) 3 (1 / 4)
           3 3 emptyMat emptyMat (mkMat 3 [[0; 0; 1]; [2; 5; 1]]) emptyMat);
    [lra | lra | exact wf_emptyMat | exact flatSquare_is_flat_at_two_points].
Defined.

(** C1, as stated, fails: with [E = 1], [nu = 0] the code yields
    [C11 = 2], the analytic tensor has [C11 = 1]. *)
Lemma gsMaterialMatrix_flat_patch_counterexample :
  gsMaterialMatrix_eval_into staleStorage unitMaterial (mkMat 3 [[0; 0; 1]]) emptyMat
  <> Ok (mkMat 9 [analyticPlaneStress 1 0]).
Proof.
  unfold unitMaterial.
  rewrite gsMaterialMatrix_flat_columns;
    [| lra | lra | exact wf_emptyMat | exact flatSquare_is_flat].
  cbn [columns map]. unfold doubledPlaneStress, analyticPlaneStress.
  intros H. inversion H as [H0].
  assert (Hd : 1 - 0 * 0 = 1) by ring. rewrite Hd in H0.
  lra.
Qed.



Lemma twoPlies_second_violates : ~ symmetric twoPlies 1.
Proof. unfold symmetric; simpl. lra. Qed.

Lemma twoPlies_first_symmetric (i : nat) : (i < 1)%nat -> symmetric twoPlies i.
Proof.
  intros Hi. assert (i = 0%nat) by lia. subst i.
  unfold symmetric; simpl. lra.
Qed.

Lemma gsMaterialMatrixD_symmetry_violation_witness :
  ~ symmetric twoPlies 1 /\
  let s := fold_left (plyStep twoPlies) (seq 0 1)
                     (beforeLoop staleStorage twoPlies zeroState) in
  gsMaterialMatrixD_eval_into staleStorage twoPlies twoPoints zeroState
  = Aborted (NoSymmetry 1) s
  /\ trace s = trace zeroState ++ stepsOf (seq 0 1).
Proof.
  split; [exact twoPlies_second_violates|].
  apply (proj1 (gsMaterialMatrixD_symmetry_violation staleStorage twoPlies
                  twoPoints zeroState 1 (Nat.lt_succ_diag_r 1)
                  twoPlies_second_violates twoPlies_first_symmetric)).
  reflexivity.
Defined.

(** C8, as stated, fails: the second of the two plies violates the
    symmetry, and when the call aborts the four steps of the first ply
    have been run. *)
Lemma gsMaterialMatrixD_symmetry_violation_counterexample :
  ~ symmetric twoPlies 1 /\
  ~ (exists e s,
       gsMaterialMatrixD_eval_into staleStorage twoPlies twoPoints zeroState
       = Aborted e s
       /\ trace s = trace zeroState).
Proof.
  split; [exact twoPlies_second_violates|].
  intros (e & s & Hrun & Htrace).
  rewrite (eval_into_first_violation staleStorage twoPlies twoPoints zeroState 1)
    in Hrun;
    [| simpl; lia | exact twoPlies_second_violates
     | exact twoPlies_first_symmetric | reflexivity].
  inversion Hrun; subst s.
  rewrite trace_plyStep in Htrace. discriminate Htrace.
Qed.

Lemma onePly_symmetric (i : nat) :
  (i < length (_phi onePly))%nat -> symmetric onePly i.
Proof.
  intros Hi. assert (i = 0%nat) by (simpl in Hi; lia). subst i.
  unfold symmetric; simpl. lra.
Qed.

(** C2 at a failing input: two query points, valid data of one ply.
    The call returns a result with ONE column: the matrix built by
    [result.replicate(1, u.cols())] is dropped. *)
Theorem gsMaterialMatrixD_result_not_replicated :
  cols twoPoints = 2%nat /\
  exists s,
    gsMaterialMatrixD_eval_into staleStorage onePly twoPoints zeroState
    = Returned tt s
    /\ cols (result s) = 1%nat.
Proof.
  split; [reflexivity|].
  apply gsMaterialMatrixD_one_column; [reflexivity | exact onePly_symmetric].
Qed.

Lemma addColumns_zero (a : mat3) :
  addColumns (repeat 0 9) (coeffs3 a) = coeffs3 a.
Proof. unfold addColumns, coeffs3; simpl. coefficientwise; ring. Qed.

Lemma addColumns_twice (a : mat3) :
  addColumns (coeffs3 a) (coeffs3 a) = map (Rmult 2) (coeffs3 a).
Proof. unfold addColumns, coeffs3; simpl. coefficientwise; ring. Qed.

(** C9 at a failing input: one ply with fibre angle 0, evaluated twice
    into the same result matrix.  Both calls have [Tmat] the identity;
    the first, on zeros, yields [Dmat * t]; the second adds [Dmat * t] to
    what the matrix holds and yields twice that. *)
Theorem gsMaterialMatrixD_accumulates_into_result :
  let D := plyDmat 300 200 100 (3 / 10) (2 / 10) in
  let t := 1 / 10 in
  exists s1 s2,
    gsMaterialMatrixD_eval_into staleStorage onePly twoPoints zeroState
    = Returned tt s1
    /\ result s1 = mkMat 9 [coeffs3 (scale D t)]
    /\ gsMaterialMatrixD_eval_into staleStorage onePly twoPoints s1
       = Returned tt s2
    /\ Tmat s2 = identity3
    /\ Dmat s2 = D
    /\ result s2 = mkMat 9 [map (Rmult 2) (coeffs3 (scale D t))]
    /\ result s2 <> mkMat 9 [coeffs3 (scale D t)].
Proof.
  intros D t.
  assert (Hsym : 2 / 10 * 300 = 3 / 10 * 200) by lra.
  destruct (gsMaterialMatrixD_single_ply staleStorage 300 200 100 (3 / 10) (2 / 10)
              (1 / 10) (repeat 0 9) twoPoints zeroState Hsym eq_refl eq_refl)
    as (s1 & Hrun1 & _ & _ & Hres1).
  rewrite addColumns_zero in Hres1.
  destruct (gsMaterialMatrixD_single_ply staleStorage 300 200 100 (3 / 10) (2 / 10)
              (1 / 10)
              (coeffs3 (scale (plyDmat 300 200 100 (3 / 10) (2 / 10)) (1 / 10)))
              twoPoints s1 Hsym eq_refl Hres1)
    as (s2 & Hrun2 & HT & HD & Hres2).
  rewrite addColumns_twice in Hres2.
  exists s1, s2. repeat split; auto.
  rewrite Hres2. unfold D, t, plyDmat, scale, coeffs3; simpl.
  intros H. inversion H as [[H0 H1 H2 H3 H4 H5 H6 H7 H8]].
  clear - H8. lra.
Qed.

(* ================================================================== *)
(** * The further properties at concrete inputs *)

Lemma gsIntegrantZ_tmp_irrelevant_witness :
  wf (mkMat 2 [[1; 2]]) /\
  gsIntegrantZ_eval_into staleStorage
    (mkIntegrantZ xPlusZ emptyMat (mkMat 2 [[1; 2]])) (mkMat 1 [[5]]) emptyMat
  = gsIntegrantZ_eval_into staleStorage
      (mkIntegrantZ xPlusZ (mkMat 1 [[9]]) (mkMat 2 [[1; 2]])) (mkMat 1 [[5]]) emptyMat.
Proof.
  assert (HP : wf (mkMat 2 [[1; 2]])) by (repeat constructor).
  split; [exact HP|].
  exact (gsIntegrantZ_tmp_irrelevant staleStorage xPlusZ emptyMat (mkMat 1 [[9]])
           (mkMat 2 [[1; 2]]) (mkMat 1 [[5]]) emptyMat HP).
Defined.

Lemma gsIntegrate_domain_mismatch_witness :
  let u := mkMat 1 [[3]] in
  domainDim xPlusZ <> (rows u + 1)%nat /\
  gsIntegrate_eval_into staleStorage midpointRule
    (mkIntegrate xPlusZ (pointwise 1 1 (fun _ => [1])) emptyMat) u emptyMat
  = Failed DomainDimMismatch.
Proof.
  intros u.
  assert (Hd : domainDim xPlusZ <> (rows u + 1)%nat) by (simpl; lia).
  split; [exact Hd|].
  apply (gsIntegrate_domain_mismatch staleStorage midpointRule
           (mkIntegrate xPlusZ (pointwise 1 1 (fun _ => [1])) emptyMat)
           u emptyMat (mkMat 1 [[1]]) eq_refl Hd);
    unfold cols; simpl; lia.
Defined.

Lemma gsIntegrate_constant_witness :
  gsIntegrate_eval_into staleStorage midpointRule
    (mkIntegrate (constantFunction [1; 3] 3) (pointwise 2 1 (fun _ => [2])) emptyMat)
    (mkMat 2 [[0; 0]]) emptyMat
  = Ok (tabulate 2 1 (fun i j => nth i [1; 3] 0 * 2)).
Proof.
  apply (gsIntegrate_constant staleStorage midpointRule [1; 3] 2 1 (fun _ => [2])
           emptyMat (mkMat 2 [[0; 0]]) emptyMat midpointRule_constants).
  - intros j _. simpl. lra.
  - exact wf_emptyMat.
Defined.

Lemma gsIntegrateZ_no_points_witness :
  gsIntegrateZ_eval_into staleStorage midpointRule
    (mkIntegrateZ failingField 1) (mkMat 1 []) emptyMat
  = Ok (mkMat 1 []).
Proof.
  exact (gsIntegrateZ_no_points staleStorage midpointRule
           (mkIntegrateZ failingField 1) (mkMat 1 []) emptyMat eq_refl).
Defined.

Lemma gsIntegrateZ_field_failure_witness :
  gsIntegrateZ_eval_into staleStorage midpointRule
    (mkIntegrateZ failingField 1) (mkMat 1 [[0]]) emptyMat
  = Failed NoImplementation.
Proof.
  apply (gsIntegrateZ_field_failure staleStorage midpointRule
           (mkIntegrateZ failingField 1) (mkMat 1 [[0]]) emptyMat NoImplementation
           eq_refl); unfold cols; simpl; lia.
Defined.

Lemma unitMaterial_at_unit_z :
  gsMaterialMatrix_eval_into staleStorage unitMaterial (mkMat 3 [[0; 0; 1]]) emptyMat
  = Ok (mkMat 9 [doubledPlaneStress 1 0]).
Proof.
  unfold unitMaterial.
  rewrite gsMaterialMatrix_flat_columns;
    [reflexivity | lra | lra | exact wf_emptyMat | exact flatSquare_is_flat].
Qed.

Lemma gsMaterialMatrix_result_symmetric_witness :
  let res := mkMat 9 [doubledPlaneStress 1 0] in
  let u := mkMat 3 [[0; 0; 1]] in
  rows res = 9%nat /\ cols res = cols u
  /\ length (col res 0) = 9%nat
  /\ coef res 1 0 = coef res 3 0
  /\ coef res 2 0 = coef res 6 0
  /\ coef res 5 0 = coef res 7 0.
Proof.
  apply (gsMaterialMatrix_result_symmetric staleStorage unitMaterial
           (mkMat 3 [[0; 0; 1]]) emptyMat (mkMat 9 [doubledPlaneStress 1 0]) 0
           wf_emptyMat unitMaterial_at_unit_z).
  unfold cols; simpl; lia.
Defined.

Lemma gsMaterialMatrix_result_is_output_witness :
  wf (mkMat 1 [[5]]) /\
  gsMaterialMatrix_eval_into staleStorage unitMaterial (mkMat 3 [[0; 0; 1]]) emptyMat
  = gsMaterialMatrix_eval_into staleStorage unitMaterial (mkMat 3 [[0; 0; 1]])
      (mkMat 1 [[5]]).
Proof.
  assert (H : wf (mkMat 1 [[5]])) by (repeat constructor).
  split; [exact H|].
  exact (gsMaterialMatrix_result_is_output staleStorage unitMaterial
           (mkMat 3 [[0; 0; 1]]) emptyMat (mkMat 1 [[5]]) wf_emptyMat H).
Defined.

Lemma shiftedMaterial_nondegenerate (c : list R) :
  In c (columns (mkMat 3 [[0; 0; 1]])) ->
  let xy := firstn 2 c in
  nondegenerate (geo_jacobian shiftedSquare xy) (geo_normal shiftedSquare xy)
                (nth 0 (modulusX (geo_eval shiftedSquare xy)) 0)
                (nth 0 (ratioZero (geo_eval shiftedSquare xy)) 0).
Proof.
  intros [<-|[]].
  change (nondegenerate flatJacobian e_z (0 + 1) 0).
  apply flat_nondegenerate; lra.
Qed.

Lemma gsMaterialMatrix_scales_with_modulus_witness :
  3 <> 0 /\
  exists res,
    gsMaterialMatrix_eval_into staleStorage shiftedMaterial
      (mkMat 3 [[0; 0; 1]]) emptyMat = Ok res
    /\ gsMaterialMatrix_eval_into staleStorage
         (mkMaterialMatrix (fun _ => shiftedSquare)
            (pointwise 3 1 (fun X => map (Rmult 3) (modulusX X)))
            (pointwise 3 1 ratioZero) emptyMat emptyMat)
         (mkMat 3 [[0; 0; 1]]) emptyMat
       = Ok (mkMat 9 (map (map (Rmult 3)) (columns res))).
Proof.
  split; [lra|].
  apply (gsMaterialMatrix_scales_with_modulus staleStorage (fun _ => shiftedSquare)
           3 1 3 1 modulusX ratioZero 3 emptyMat emptyMat (mkMat 3 [[0; 0; 1]])
           emptyMat emptyMat);
    [lra | exact wf_emptyMat | exact wf_emptyMat
     | exact shiftedMaterial_nondegenerate].
Defined.

Lemma gsMaterialMatrix_piece_eval_witness :
  gsMaterialMatrix_eval_into staleStorage
    (piece (mkMaterialMatrix (fun k => if Nat.eqb k 1 then shiftedSquare else flatSquare)
                             (pointwise 3 1 modulusX) (pointwise 3 1 ratioZero)
                             emptyMat emptyMat) 1)
    (mkMat 3 [[0; 0; 1]]) emptyMat
  = Ok (mkMat 9 [tensorOfPoint shiftedSquare modulusX ratioZero [0; 0; 1]]).
Proof.
  exact (gsMaterialMatrix_piece_eval staleStorage
           (fun k => if Nat.eqb k 1 then shiftedSquare else flatSquare)
           3 1 3 1 modulusX ratioZero emptyMat emptyMat (mkMat 3 [[0; 0; 1]])
           emptyMat 1 wf_emptyMat).
Defined.

Lemma gsMaterialMatrixD_membrane_sum_witness :
  exists s,
    gsMaterialMatrixD_eval_into staleStorage onePly twoPoints zeroState
    = Returned tt s
    /\ result s = mkMat 9 [laminateSum onePly (repeat 0 9)]
    /\ t_tot s = fold_left Rplus (_thickness onePly) 0
    /\ t_temp s = t_tot s.
Proof.
  exact (gsMaterialMatrixD_membrane_sum staleStorage onePly twoPoints zeroState
           (repeat 0 9) eq_refl onePly_symmetric eq_refl eq_refl).
Defined.

Lemma gsMaterialMatrixD_no_plies_witness :
  gsMaterialMatrixD_eval_into staleStorage noPlies twoPoints zeroState
  = Aborted NoLaminates zeroState.
Proof.
  exact (gsMaterialMatrixD_no_plies staleStorage noPlies twoPoints zeroState
           eq_refl eq_refl eq_refl eq_refl eq_refl).
Defined.

Lemma gsMaterialMatrixD_result_symmetric_witness :
  symmetricColumn (repeat 0 9) /\
  exists s,
    gsMaterialMatrixD_eval_into staleStorage onePly twoPoints zeroState
    = Returned tt s
    /\ symmetricColumn (col (result s) 0).
Proof.
  assert (H : symmetricColumn (repeat 0 9)) by (repeat split).
  split; [exact H|].
  exact (gsMaterialMatrixD_result_symmetric staleStorage onePly twoPoints zeroState
           (repeat 0 9) eq_refl onePly_symmetric eq_refl eq_refl H).
Defined.



Lemma gsIntegrateZ_over_adapter_witness :
  gsIntegrateZ_eval_into staleStorage midpointRule
    (mkIntegrateZ
       (gsIntegrantZ_fun staleStorage
          (mkIntegrantZ xPlusZ emptyMat (mkMat 2 [[1; 2]]))) 1)
    (mkMat 1 [[0]]) emptyMat
  = Ok (tabulate 1 1
          (fun i _ => quadratureOf midpointRule (fixedKV 1)
                                   (fun z => nth i [1 + z] 0))).
Proof.
  exact (gsIntegrateZ_over_adapter staleStorage midpointRule 1
           (fun p => [nth 0 p 0 + nth 2 p 0]) emptyMat [1; 2] 1
           (mkMat 1 [[0]]) emptyMat wf_emptyMat).
Defined.

Lemma gsIntegrate_pointwise_witness :
  let u := mkMat 2 [[3; 0]] in
  wf u /\
  gsIntegrate_eval_into staleStorage midpointRule
    (mkIntegrate xPlusZ (pointwise 2 1 (fun _ => [1])) emptyMat) u emptyMat
  = Ok (tabulate 1 (cols u)
          (fun i j => quadratureOf midpointRule (variableKV (1 / 2))
                                   (fun z => nth i [nth 0 (col u j ++ [z]) 0
                                                    + nth 2 (col u j ++ [z]) 0] 0))).
Proof.
  intros u.
  assert (Hu : wf u) by (repeat constructor).
  split; [exact Hu|].
  exact (gsIntegrate_pointwise staleStorage midpointRule 2 1 1
           (fun p => [nth 0 p 0 + nth 2 p 0]) (fun _ => [1]) emptyMat u emptyMat
           Hu wf_emptyMat).
Defined.

Lemma gsMaterialMatrixD_reads_fresh_storage_witness :
  exists s,
    gsMaterialMatrixD_eval_into staleStorage onePly twoPoints
      (set_result emptyMat zeroState)
    = Returned tt s
    /\ result s = mkMat 9 [laminateSum onePly (map staleStorage (seq 0 9))].
Proof.
  apply (gsMaterialMatrixD_reads_fresh_storage staleStorage onePly twoPoints
           (set_result emptyMat zeroState) eq_refl onePly_symmetric).
  unfold cols; simpl; lia.
Defined.
